(** * P&ID core: tag parsing, loop inference, validation and pipe routing

    A shallow embedding of the engineering core of the P&ID generator:
    [control_systems.py] (ControlSystemAnalyzer, PipeRouter, PnIDValidator)
    and the component model of [app.py] (ProfessionalPnidComponent).

    Conventions of the embedding.
    - Python [str] is [string] (8-bit characters), so [\d] is [0-9].
    - Python [float]/[int] world coordinates are exact rationals [Q]; grid
      cells and grid sizes are [Z].
    - A Python [dict] is an association list in insertion order.
    - A Python [set] of grid cells is a [gset (Z * Z)].
    - An exception is a [Raise] in the [result] monad; a [while] loop whose
      termination is not syntactic takes a fuel argument and answers [None]
      when the fuel runs out. *)

From Stdlib Require Import ZArith QArith String Ascii List Bool Lia.
From stdpp Require Import base list gmap sets strings.

Set Warnings "-register-all,-clear-no-such-hyp".

Local Open Scope string_scope.

(** ** Python runtime pieces *)

Inductive exn := AttributeError | IndexError | ZeroDivisionError.

Inductive result (A : Type) :=
| Ok (a : A)
| Raise (e : exn).
Arguments Ok {A} a.
Arguments Raise {A} e.

#[global] Instance result_ret : MRet result := fun A a => Ok a.
#[global] Instance result_bind : MBind result := fun A B k m =>
  match m with
  | Ok a => k a
  | Raise e => Raise e
  end.

(** [for a in l: s = f(s, a)] where the body may raise. *)
Fixpoint for_each {S A} (f : S -> A -> result S) (l : list A) (s : S) : result S :=
  match l with
  | [] => Ok s
  | a :: l' => s' ← f s a; for_each f l' s'
  end.

(** Truthiness of a [str]: the empty string is falsy. *)
Definition str_truthy (s : string) : bool :=
  match s with
  | EmptyString => false
  | String _ _ => true
  end.

(** Truthiness of a value that is [None] or a [str]. *)
Definition opt_truthy (o : option string) : bool :=
  match o with
  | Some s => str_truthy s
  | None => false
  end.

(** [sub in s] for strings. *)
Fixpoint str_in (sub s : string) : bool :=
  String.prefix sub s ||
  match s with
  | EmptyString => false
  | String _ r => str_in sub r
  end.

(** [c in s] for a one-character needle. *)
Fixpoint char_in (c : ascii) (s : string) : bool :=
  match s with
  | EmptyString => false
  | String c' r => Ascii.eqb c c' || char_in c r
  end.

(** [x in l] for a list of strings. *)
Definition str_in_list (x : string) (l : list string) : bool :=
  existsb (String.eqb x) l.

Definition is_upper (c : ascii) : bool :=
  let n := nat_of_ascii c in (65 <=? n)%nat && (n <=? 90)%nat.

Definition is_digit (c : ascii) : bool :=
  let n := nat_of_ascii c in (48 <=? n)%nat && (n <=? 57)%nat.

Definition lower_char (c : ascii) : ascii :=
  if is_upper c then ascii_of_nat (nat_of_ascii c + 32) else c.

(** [s.lower()] *)
Fixpoint lower (s : string) : string :=
  match s with
  | EmptyString => EmptyString
  | String c r => String (lower_char c) (lower r)
  end.

(** *** Regular-expression pieces

    Every pattern of the program is a sequence of greedy repetitions of
    pairwise disjoint character classes ([A-Z], [-], [0-9], the double quote)
    so a greedy left-to-right scan decides the match: giving back characters
    of a run never lets the next piece match. *)

(** The longest prefix of [s] made of characters satisfying [p], and the rest. *)
Fixpoint span (p : ascii -> bool) (s : string) : string * string :=
  match s with
  | EmptyString => (EmptyString, EmptyString)
  | String c r =>
      if p c then let '(a, b) := span p r in (String c a, b)
      else (EmptyString, s)
  end.

(** An optional single character [c?]: the rest after it. *)
Definition opt_char (c : ascii) (s : string) : string :=
  match s with
  | String c' r => if Ascii.eqb c c' then r else s
  | EmptyString => s
  end.

(** [[A-Z]?]: the matched text and the rest. *)
Definition opt_upper (s : string) : string * string :=
  match s with
  | String c r => if is_upper c then (String c EmptyString, r) else (EmptyString, s)
  | EmptyString => (EmptyString, s)
  end.

(** [$]: at the end of the string, or just before a final newline. *)
Definition at_end (s : string) : bool :=
  match s with
  | EmptyString => true
  | String c EmptyString => Ascii.eqb c "010"%char
  | _ => false
  end.

Definition hyphen : ascii := "-"%char.
Definition dquote : ascii := ascii_of_nat 34.

(** *** dict, in insertion order *)

Definition dict (V : Type) := list (string * V).

Fixpoint dict_get {V} (d : dict V) (k : string) : option V :=
  match d with
  | [] => None
  | (k', v) :: d' => if String.eqb k k' then Some v else dict_get d' k
  end.

(** [k in d] *)
Definition dict_mem {V} (d : dict V) (k : string) : bool :=
  match dict_get d k with
  | Some _ => true
  | None => false
  end.

(** [d[k] = v]: an existing key keeps its position. *)
Fixpoint dict_set {V} (d : dict V) (k : string) (v : V) : dict V :=
  match d with
  | [] => [(k, v)]
  | (k', v') :: d' =>
      if String.eqb k k' then (k', v) :: d' else (k', v') :: dict_set d' k v
  end.

(** ** control_systems.py: instrument tags *)

(** The dict returned by [_parse_instrument_function]. *)
Record TagInfo := {
  variable : string;
  modifiers : string;
  number : string;
  is_controller : bool;
  is_transmitter : bool;
  is_valve : bool;
  is_indicator : bool;
  is_alarm : bool
}.

(** [re.match] of the tag against: one [A-Z] (variable), any number of
    [A-Z] (modifiers), an optional hyphen, one or more digits (number), [$];
    then the role flags. *)
Definition _parse_instrument_function (tag : string) : option TagInfo :=
  match tag with
  | String c rest =>
      if is_upper c then
        let '(mods, r1) := span is_upper rest in
        let r2 := opt_char hyphen r1 in
        let '(num, r3) := span is_digit r2 in
        if str_truthy num && at_end r3 then
          Some {| variable := String c EmptyString;
                  modifiers := mods;
                  number := num;
                  is_controller := char_in "C" mods;
                  is_transmitter := char_in "T" mods;
                  is_valve := char_in "V" mods;
                  is_indicator := char_in "I" mods;
                  is_alarm := char_in "A" mods || char_in "H" mods || char_in "L" mods |}
        else None
      else None
  | EmptyString => None
  end.

(** ** app.py: ProfessionalPnidComponent *)

Module ProfessionalPnidComponent.
Local Open Scope Q_scope.

(** The attributes set by [__init__] from the row, and [tag_info], which
    [ControlSystemAnalyzer._preprocess_components] attaches later.
    [is_instrument] and [ports] are computed once by [__init__] from the
    other attributes and never reassigned; they are functions here. *)
Record t := {
  id : string;
  tag : string;
  component_type : string;
  x : Q;
  y : Q;
  width : Q;
  height : Q;
  rotation : Q;
  tag_info : option TagInfo
}.

(** [re.match] against the ISA pattern: [A-Z]{2,4}, an optional hyphen,
    \d{3,4}, an optional [A-Z], [$]. *)
Definition isa_tag_match (s : string) : bool :=
  let '(ups, r1) := span is_upper s in
  let r2 := opt_char hyphen r1 in
  let '(ds, r3) := span is_digit r2 in
  let '(_, r4) := opt_upper r3 in
  (2 <=? String.length ups)%nat && (String.length ups <=? 4)%nat &&
  (3 <=? String.length ds)%nat && (String.length ds <=? 4)%nat &&
  at_end r4.

Definition _check_if_instrument (self : t) : bool :=
  if negb (str_truthy (tag self)) then false
  else isa_tag_match (tag self).

Definition is_instrument (self : t) : bool := _check_if_instrument self.

(** A port: the dict [{'dx': .., 'dy': ..}]. *)
Record port := { dx : Q; dy : Q }.

Definition _define_professional_ports (self : t) : dict port :=
  let w := width self in
  let h := height self in
  if is_instrument self then
    [ ("center", {| dx := w / 2; dy := h / 2 |});
      ("top", {| dx := w / 2; dy := 0 |});
      ("bottom", {| dx := w / 2; dy := h |});
      ("left", {| dx := 0; dy := h / 2 |});
      ("right", {| dx := w; dy := h / 2 |});
      ("default", {| dx := w / 2; dy := h / 2 |}) ]
  else if str_in "pump" (component_type self) then
    [ ("suction", {| dx := 0; dy := h * (6 # 10) |});
      ("discharge", {| dx := w * (5 # 10); dy := 0 |});
      ("drain", {| dx := w * (2 # 10); dy := h |});
      ("vent", {| dx := w * (8 # 10); dy := 0 |});
      ("seal_flush", {| dx := w; dy := h * (3 # 10) |});
      ("default", {| dx := 0; dy := h * (6 # 10) |}) ]
  else if str_in "valve" (component_type self) then
    [ ("inlet", {| dx := 0; dy := h / 2 |});
      ("outlet", {| dx := w; dy := h / 2 |});
      ("stem", {| dx := w / 2; dy := 0 |});
      ("body_drain", {| dx := w / 2; dy := h |});
      ("default", {| dx := 0; dy := h / 2 |}) ]
  else if str_in "vessel" (component_type self) || str_in "tank" (component_type self) then
    [ ("top", {| dx := w / 2; dy := 0 |});
      ("bottom", {| dx := w / 2; dy := h |});
      ("inlet", {| dx := 0; dy := h * (3 # 10) |});
      ("outlet", {| dx := w; dy := h * (7 # 10) |});
      ("drain", {| dx := w * (3 # 10); dy := h |});
      ("vent", {| dx := w * (7 # 10); dy := 0 |});
      ("level_tap_high", {| dx := 0; dy := h * (2 # 10) |});
      ("level_tap_low", {| dx := 0; dy := h * (8 # 10) |});
      ("default", {| dx := w / 2; dy := h / 2 |}) ]
  else if str_in "filter" (component_type self) then
    [ ("inlet", {| dx := w / 2; dy := 0 |});
      ("outlet", {| dx := w / 2; dy := h |});
      ("drain", {| dx := w * (2 # 10); dy := h * (9 # 10) |});
      ("vent", {| dx := w * (8 # 10); dy := h * (1 # 10) |});
      ("dp_high", {| dx := 0; dy := h * (3 # 10) |});
      ("dp_low", {| dx := 0; dy := h * (7 # 10) |});
      ("default", {| dx := w / 2; dy := 0 |}) ]
  else
    [ ("inlet", {| dx := 0; dy := h / 2 |});
      ("outlet", {| dx := w; dy := h / 2 |});
      ("top", {| dx := w / 2; dy := 0 |});
      ("bottom", {| dx := w / 2; dy := h |});
      ("default", {| dx := w / 2; dy := h / 2 |}) ].

Definition ports (self : t) : dict port := _define_professional_ports self.

(** [a or b] on two [dict.get] results: a port dict has two keys, so it is
    truthy, and [a or b] is [a] unless [a] is [None]. *)
Definition or_else {A} (a b : option A) : option A :=
  match a with
  | Some _ => a
  | None => b
  end.

Section Trig.
(** [math.radians], [math.cos] and [math.sin] of the Python library. *)
Variables radians cos sin : Q -> Q.

Definition get_port_coords (self : t) (port_name : string) : Q * Q :=
  match or_else (dict_get (ports self) port_name)
                (dict_get (ports self) "default") with
  | Some port =>
      if negb (Qeq_bool (rotation self) 0) then
        let cx := width self / 2 in
        let cy := height self / 2 in
        let dx0 := dx port - cx in
        let dy0 := dy port - cy in
        let angle := radians (rotation self) in
        let new_dx := dx0 * cos angle - dy0 * sin angle + cx in
        let new_dy := dx0 * sin angle + dy0 * cos angle + cy in
        (x self + new_dx, y self + new_dy)
      else
        (x self + dx port, y self + dy port)
  | None => (x self + width self / 2, y self + height self / 2)
  end.
End Trig.

End ProfessionalPnidComponent.

Abbreviation Component := ProfessionalPnidComponent.t.

(** ** app.py: ProfessionalPnidPipe *)

Module ProfessionalPnidPipe.

(** [from_comp] and [to_comp] are [component_map.get(..)]: the component
    object, or [None] when the id does not resolve.  The analysis reads only
    [id], [tag] and [component_type] through them. *)
Record t := {
  id : string;
  label : string;
  line_type : string;
  from_comp : option Component;
  to_comp : option Component;
  from_port : string;
  to_port : string;
  points : list (Q * Q)
}.

End ProfessionalPnidPipe.

Abbreviation Pipe := ProfessionalPnidPipe.t.

(** ** control_systems.py: control loops *)

Inductive LoopType :=
| FLOW | PRESSURE | LEVEL | TEMPERATURE | CASCADE | RATIO | FEEDFORWARD.

Module ControlLoop.

Record t := {
  loop_id : string;
  loop_type : LoopType;
  primary_element : string;
  controller : string;
  final_element : string;
  setpoint_source : option string;
  components : list string
}.

(** The dataclass constructor with [components=None], and [__post_init__]. *)
Definition make (loop_id : string) (loop_type : LoopType)
    (primary_element controller final_element : string)
    (setpoint_source : option string) : t :=
  {| loop_id := loop_id;
     loop_type := loop_type;
     primary_element := primary_element;
     controller := controller;
     final_element := final_element;
     setpoint_source := setpoint_source;
     components :=
       ([primary_element; controller; final_element] ++
        match setpoint_source with
        | Some s => if str_truthy s then [s] else []
        | None => []
        end)%list |}.

End ControlLoop.

(** An entry of [interlocks]: the dict with keys alarm, action, type. *)
Record Interlock := {
  alarm : string;
  action : string;
  interlock_type : string
}.

Module ControlSystemAnalyzer.
Import ProfessionalPnidComponent.

Record t := {
  components : dict Component;
  pipes : list Pipe;
  control_loops : list ControlLoop.t;
  interlocks : list Interlock
}.

Definition set_tag_info (comp : Component) (ti : option TagInfo) : Component :=
  {| id := id comp; tag := tag comp; component_type := component_type comp;
     x := x comp; y := y comp; width := width comp; height := height comp;
     rotation := rotation comp; tag_info := ti |}.

(** Every component object has [is_instrument] and [tag], so the [hasattr]
    tests hold; the [else] branch is reached exactly when [is_instrument]
    is false, and then its inner test holds too. *)
Definition _preprocess_components (components : dict Component) : dict Component :=
  map (fun '(comp_id, comp) =>
         if is_instrument comp
         then (comp_id, set_tag_info comp (_parse_instrument_function (tag comp)))
         else (comp_id, set_tag_info comp None))
      components.

Definition connect_step (component_id : string) (connected : list string)
    (pipe : Pipe) : result (list string) :=
  if String.eqb (ProfessionalPnidPipe.line_type pipe) "instrumentation" then
    match ProfessionalPnidPipe.from_comp pipe with
    | Some fc =>
        if String.eqb (id fc) component_id then
          match ProfessionalPnidPipe.to_comp pipe with
          | Some tc => Ok (connected ++ [id tc])%list
          | None => Raise AttributeError
          end
        else
          match ProfessionalPnidPipe.to_comp pipe with
          | Some tc =>
              if String.eqb (id tc) component_id
              then Ok (connected ++ [id fc])%list
              else Ok connected
          | None => Ok connected
          end
    | None =>
        match ProfessionalPnidPipe.to_comp pipe with
        | Some tc =>
            if String.eqb (id tc) component_id
            then Raise AttributeError
            else Ok connected
        | None => Ok connected
        end
    end
  else Ok connected.

Definition _find_connected_instruments (pipes : list Pipe)
    (component_id : string) : result (list string) :=
  for_each (connect_step component_id) pipes [].

Definition _determine_loop_type (variable : string) : LoopType :=
  if String.eqb variable "F" then FLOW
  else if String.eqb variable "P" then PRESSURE
  else if String.eqb variable "L" then LEVEL
  else if String.eqb variable "T" then TEMPERATURE
  else FLOW.

(** The four dicts filled by the first loop of [_analyze_control_systems]. *)
Record roles := {
  controllers : dict (Component * TagInfo);
  transmitters : dict (Component * TagInfo);
  control_valves : dict (Component * TagInfo);
  alarms : dict (Component * TagInfo)
}.

Definition classify_step (r : roles) (item : string * Component) : roles :=
  let '(comp_id, comp) := item in
  match (if is_instrument comp then tag_info comp else None) with
  | Some tag_analysis =>
      if is_controller tag_analysis then
        {| controllers := dict_set (controllers r) comp_id (comp, tag_analysis);
           transmitters := transmitters r;
           control_valves := control_valves r;
           alarms := alarms r |}
      else if is_transmitter tag_analysis then
        {| controllers := controllers r;
           transmitters := dict_set (transmitters r) comp_id (comp, tag_analysis);
           control_valves := control_valves r;
           alarms := alarms r |}
      else if is_valve tag_analysis then
        {| controllers := controllers r;
           transmitters := transmitters r;
           control_valves := dict_set (control_valves r) comp_id (comp, tag_analysis);
           alarms := alarms r |}
      else if is_alarm tag_analysis then
        {| controllers := controllers r;
           transmitters := transmitters r;
           control_valves := control_valves r;
           alarms := dict_set (alarms r) comp_id (comp, tag_analysis) |}
      else r
  | None => r
  end.

Definition classify (components : dict Component) : roles :=
  fold_left classify_step components
    {| controllers := []; transmitters := []; control_valves := []; alarms := [] |}.

(** The body of [for conn_id in connected] for one controller; the state is
    [(transmitter_id, final_element_id)]. *)
Definition match_step (components : dict Component) (r : roles)
    (controller_info : TagInfo) (st : option string * option string)
    (conn_id : string) : option string * option string :=
  let '(transmitter_id, final_element_id) := st in
  let transmitter_id :=
    match dict_get (transmitters r) conn_id with
    | Some (_, trans_info) =>
        if String.eqb (variable trans_info) (variable controller_info) &&
           String.eqb (number trans_info) (number controller_info)
        then Some conn_id else transmitter_id
    | None => transmitter_id
    end in
  let final_element_id :=
    if dict_mem (control_valves r) conn_id then Some conn_id
    else
      match dict_get components conn_id with
      | Some c =>
          if str_in "valve" (component_type c) then Some conn_id
          else final_element_id
      | None => final_element_id
      end in
  (transmitter_id, final_element_id).

(** The body of [for controller_id, (controller, controller_info) in
    controllers.items()]. *)
Definition loop_step (components : dict Component) (pipes : list Pipe)
    (r : roles) (loops : list ControlLoop.t)
    (item : string * (Component * TagInfo)) : result (list ControlLoop.t) :=
  let '(controller_id, (_, controller_info)) := item in
  connected ← _find_connected_instruments pipes controller_id;
  let '(transmitter_id, final_element_id) :=
    fold_left (match_step components r controller_info) connected (None, None) in
  match transmitter_id, final_element_id with
  | Some tid, Some fid =>
      if str_truthy tid && str_truthy fid then
        Ok (loops ++
            [ControlLoop.make
               (variable controller_info ++ "C-" ++ number controller_info)
               (_determine_loop_type (variable controller_info))
               tid controller_id fid None])%list
      else Ok loops
  | _, _ => Ok loops
  end.

Definition is_shutdown_tag (tag : string) : bool :=
  str_in "SDV" tag || str_in "XV" tag || str_in "trip" (lower tag).

Definition interlock_step (components : dict Component) (pipes : list Pipe)
    (ils : list Interlock)
    (item : string * (Component * TagInfo)) : result (list Interlock) :=
  let '(alarm_id, _) := item in
  connected ← _find_connected_instruments pipes alarm_id;
  Ok (fold_left
        (fun ils conn_id =>
           match dict_get components conn_id with
           | Some comp =>
               if is_shutdown_tag (tag comp)
               then (ils ++ [{| alarm := alarm_id; action := conn_id;
                                interlock_type := "Safety Interlock" |}])%list
               else ils
           | None => ils
           end)
        connected ils).

Definition _analyze_control_systems (self : t) : result t :=
  let r := classify (components self) in
  loops ← for_each (loop_step (components self) (pipes self) r)
                   (controllers r) (control_loops self);
  ils ← for_each (interlock_step (components self) (pipes self))
                 (alarms r) (interlocks self);
  Ok {| components := components self; pipes := pipes self;
        control_loops := loops; interlocks := ils |}.

(** [ControlSystemAnalyzer(components, pipes)] *)
Definition __init__ (components : dict Component) (pipes : list Pipe) : result t :=
  _analyze_control_systems
    {| components := _preprocess_components components; pipes := pipes;
       control_loops := []; interlocks := [] |}.

End ControlSystemAnalyzer.

(** ** control_systems.py: PnIDValidator *)

Module PnIDValidator.
Import ProfessionalPnidComponent.

(** [errors] and [warnings] are the two list objects created by [__init__];
    the fields hold their current contents. *)
Record t := {
  components : dict Component;
  pipes : list Pipe;
  errors : list string;
  warnings : list string
}.

Definition add_error (self : t) (msg : string) : t :=
  {| components := components self; pipes := pipes self;
     errors := (errors self ++ [msg])%list; warnings := warnings self |}.

Definition add_warning (self : t) (msg : string) : t :=
  {| components := components self; pipes := pipes self;
     errors := errors self; warnings := (warnings self ++ [msg])%list |}.

(** The analyzer built by [__init__] attaches [tag_info] to the component
    objects the validator shares with it. *)
Definition __init__ (components : dict Component) (pipes : list Pipe) : result t :=
  temp_analyzer ← ControlSystemAnalyzer.__init__ components pipes;
  Ok {| components := ControlSystemAnalyzer.components temp_analyzer;
        pipes := pipes; errors := []; warnings := [] |}.

(** The fallback [re.match] of [validate_instrument_tags]: one or more
    [A-Z], an optional hyphen, one or more digits, an optional [A-Z], [$];
    the three groups. *)
Definition fallback_tag_match (tag : string) : option (string * string * string) :=
  let '(prefix, r1) := span is_upper tag in
  let r2 := opt_char hyphen r1 in
  let '(number, r3) := span is_digit r2 in
  let '(suffix, r4) := opt_upper r3 in
  if str_truthy prefix && str_truthy number && at_end r4
  then Some (prefix, number, suffix) else None.

Definition valid_prefixes : list string :=
  [ "F"; "P"; "T"; "L"; "A"; "V"; "E"; "I"; "S"; "Z";
    "FT"; "PT"; "TT"; "LT"; "FI"; "PI"; "TI"; "LI";
    "FC"; "PC"; "TC"; "LC"; "FIC"; "PIC"; "TIC"; "LIC";
    "FV"; "PV"; "TV"; "LV"; "FCV"; "PCV"; "TCV"; "LCV";
    "FAL"; "PAL"; "TAL"; "LAL"; "FAH"; "PAH"; "TAH"; "LAH";
    "SF"; "YS"; "CP"; "CPT"; "SCR"; "SIL"; "GV"; "PR"; "RM"; "LS"; "FS";
    "FA"; "DP" ].

(** The loop body of [validate_instrument_tags]; the state is the
    validator and the local dict [tag_numbers]. *)
Definition tag_step (st : t * dict string) (item : string * Component)
    : t * dict string :=
  let '(self, tag_numbers) := st in
  let '(comp_id, comp) := item in
  if is_instrument comp then
    let tag := tag comp in
    let self :=
      if negb (isa_tag_match tag)
      then add_error self ("Invalid instrument tag format: " ++ tag)
      else self in
    let parsed :=
      match tag_info comp with
      | Some tag_analysis =>
          Some (variable tag_analysis ++ modifiers tag_analysis,
                number tag_analysis, EmptyString)
      | None => fallback_tag_match tag
      end in
    match parsed with
    | None => (self, tag_numbers)
    | Some (prefix, number, suffix) =>
        let full_tag :=
          if str_truthy suffix then prefix ++ "-" ++ number ++ suffix
          else prefix ++ "-" ++ number in
        let self :=
          if dict_mem tag_numbers full_tag
          then add_error self ("Duplicate instrument tag: " ++ tag)
          else self in
        let tag_numbers := dict_set tag_numbers full_tag comp_id in
        let self :=
          if negb (str_in_list prefix valid_prefixes)
          then add_warning self
                 ("Non-standard instrument prefix: " ++ prefix ++ " in " ++ tag)
          else self in
        (self, tag_numbers)
    end
  else (self, tag_numbers).

Definition validate_instrument_tags (self : t) : t :=
  fst (fold_left tag_step (components self) (self, [])).

Definition valid_vessel_inlets : list string :=
  ["top"; "inlet"; "side_top"; "side_bottom"].

Definition flow_step (self : t) (pipe : Pipe) : t :=
  match ProfessionalPnidPipe.from_comp pipe, ProfessionalPnidPipe.to_comp pipe with
  | Some from_comp, Some to_comp =>
      if String.eqb (ProfessionalPnidPipe.line_type pipe) "process" then
        let self :=
          if str_in "pump" (component_type from_comp) then
            if negb (String.eqb (ProfessionalPnidPipe.from_port pipe) "discharge")
            then add_warning self
                   ("Pump " ++ tag from_comp ++ " should connect from discharge port")
            else self
          else self in
        if str_in "vessel" (component_type to_comp) ||
           str_in "tank" (component_type to_comp) then
          if negb (str_in_list (ProfessionalPnidPipe.to_port pipe) valid_vessel_inlets)
          then add_warning self
                 ("Vessel " ++ tag to_comp ++ " inlet (" ++
                  ProfessionalPnidPipe.to_port pipe ++
                  ") should be from a standard inlet port (top, side, or designated inlet).")
          else self
        else self
      else self
  | _, _ => self
  end.

Definition validate_flow_directions (self : t) : t :=
  fold_left flow_step (pipes self) self.

(** [size_pattern.match(label)]: one or more digits, an optional double
    quote, a hyphen, one or more [A-Z], a hyphen, one or more digits, at the
    start of the label; the three groups. *)
Definition size_pattern_match (label : string) : option (string * string * string) :=
  let '(size, r1) := span is_digit label in
  let r2 := opt_char dquote r1 in
  match r2 with
  | String c1 r3 =>
      if Ascii.eqb c1 hyphen then
        let '(service, r4) := span is_upper r3 in
        match r4 with
        | String c2 r5 =>
            if Ascii.eqb c2 hyphen then
              let '(number, _) := span is_digit r5 in
              if str_truthy size && str_truthy service && str_truthy number
              then Some (size, service, number) else None
            else None
        | EmptyString => None
        end
      else None
  | EmptyString => None
  end.

(** The loop body of [validate_line_sizing]; the state is the validator and
    the local dict [line_sizes]. *)
Definition sizing_step (st : t * dict string) (pipe : Pipe) : t * dict string :=
  let '(self, line_sizes) := st in
  if str_truthy (ProfessionalPnidPipe.label pipe) then
    match size_pattern_match (ProfessionalPnidPipe.label pipe) with
    | Some (size, service, number) =>
        let key := service ++ "-" ++ number in
        let self :=
          match dict_get line_sizes key with
          | Some old =>
              if negb (String.eqb old size)
              then add_warning self
                     ("Inconsistent line sizing for " ++ key ++ ": " ++ size ++
                      String dquote (" vs " ++ old ++ String dquote EmptyString))
              else self
          | None => self
          end in
        (self, dict_set line_sizes key size)
    | None => (self, line_sizes)
    end
  else (self, line_sizes).

Definition validate_line_sizing (self : t) : t :=
  fst (fold_left sizing_step (pipes self) (self, [])).

Definition loop_check_step (self : t) (loop : ControlLoop.t) : t :=
  let self :=
    if negb (str_truthy (ControlLoop.primary_element loop))
    then add_error self
           ("Control loop " ++ ControlLoop.loop_id loop ++ " missing primary element")
    else self in
  if negb (str_truthy (ControlLoop.final_element loop))
  then add_error self
         ("Control loop " ++ ControlLoop.loop_id loop ++
          " missing final control element")
  else self.

(** A new analyzer is built on every call; it re-attaches [tag_info] to the
    shared component objects. *)
Definition validate_control_loops (self : t) : result t :=
  current_analyzer_for_validation ←
    ControlSystemAnalyzer.__init__ (components self) (pipes self);
  Ok (fold_left loop_check_step
        (ControlSystemAnalyzer.control_loops current_analyzer_for_validation)
        {| components :=
             ControlSystemAnalyzer.components current_analyzer_for_validation;
           pipes := pipes self; errors := errors self;
           warnings := warnings self |}).

Definition is_relief_pipe (vessel : Component) (pipe : Pipe) : bool :=
  match ProfessionalPnidPipe.from_comp pipe, ProfessionalPnidPipe.to_comp pipe with
  | Some from_comp, Some to_comp =>
      String.eqb (id from_comp) (id vessel) &&
      (str_in "PSV" (tag to_comp) || str_in "PRV" (tag to_comp))
  | _, _ => false
  end.

Definition safety_step (self : t) (vessel : Component) : t :=
  let has_psv := existsb (is_relief_pipe vessel) (pipes self) in
  if negb has_psv
  then add_warning self
         ("Vessel " ++ tag vessel ++ " should have pressure relief protection")
  else self.

Definition validate_safety_systems (self : t) : t :=
  let vessels :=
    List.filter (fun c => str_in "vessel" (component_type c) ||
                     str_in "tank" (component_type c))
           (map snd (components self)) in
  fold_left safety_step vessels self.

(** The lists of the returned dict are the validator's own list objects,
    not copies: a reference is resolved against the validator's state at
    the time it is read. *)
Inductive list_ref := self_errors | self_warnings.

Definition deref (self : t) (r : list_ref) : list string :=
  match r with
  | self_errors => errors self
  | self_warnings => warnings self
  end.

(** The dict returned by [validate_all]. *)
Record report := {
  r_errors : list_ref;
  r_warnings : list_ref;
  is_valid : bool
}.

Definition validate_all (self : t) : result (t * report) :=
  let self := validate_instrument_tags self in
  let self := validate_flow_directions self in
  let self := validate_line_sizing self in
  self ← validate_control_loops self;
  let self := validate_safety_systems self in
  Ok (self, {| r_errors := self_errors; r_warnings := self_warnings;
               is_valid := Nat.eqb (length (errors self)) 0 |}).

End PnIDValidator.

(** ** heapq (Python standard library)

    [heappush] and [heappop] as in CPython's [Lib/heapq.py], on a list used
    as an array, for an element type with [__lt__].  The indices handed to
    the sift loops are always inside the list; a lookup outside it (which
    would raise) leaves the heap as it is. *)

Section Heapq.
Context {A : Type} (lt : A -> A -> bool).

(** The [while pos > startpos] loop of [_siftdown]; [pos] decreases at each
    turn, so [pos] turns are enough. *)
Fixpoint _siftdown_loop (fuel : nat) (heap : list A) (startpos pos : nat)
    (newitem : A) : list A :=
  match fuel with
  | O => <[pos := newitem]> heap
  | S fuel' =>
      if (startpos <? pos)%nat then
        let parentpos := Nat.shiftr (pos - 1) 1 in
        match heap !! parentpos with
        | Some parent =>
            if lt newitem parent
            then _siftdown_loop fuel' (<[pos := parent]> heap) startpos parentpos newitem
            else <[pos := newitem]> heap
        | None => <[pos := newitem]> heap
        end
      else <[pos := newitem]> heap
  end.

Definition _siftdown (heap : list A) (startpos pos : nat) : list A :=
  match heap !! pos with
  | Some newitem => _siftdown_loop pos heap startpos pos newitem
  | None => heap
  end.

(** The [while childpos < endpos] loop of [_siftup]: the heap and the final
    [pos].  [pos] increases at each turn, so [endpos] turns are enough. *)
Fixpoint _siftup_loop (fuel : nat) (heap : list A) (endpos pos : nat)
    : list A * nat :=
  match fuel with
  | O => (heap, pos)
  | S fuel' =>
      let childpos := (2 * pos + 1)%nat in
      if (childpos <? endpos)%nat then
        let rightpos := (childpos + 1)%nat in
        let childpos :=
          match heap !! childpos, heap !! rightpos with
          | Some c, Some r =>
              if (rightpos <? endpos)%nat && negb (lt c r) then rightpos else childpos
          | _, _ => childpos
          end in
        match heap !! childpos with
        | Some c => _siftup_loop fuel' (<[pos := c]> heap) endpos childpos
        | None => (heap, pos)
        end
      else (heap, pos)
  end.

Definition _siftup (heap : list A) (pos : nat) : list A :=
  match heap !! pos with
  | Some newitem =>
      let '(heap, pos') := _siftup_loop (length heap) heap (length heap) pos in
      _siftdown (<[pos' := newitem]> heap) pos pos'
  | None => heap
  end.

Definition heappush (heap : list A) (item : A) : list A :=
  let heap := (heap ++ [item])%list in
  _siftdown heap 0 (length heap - 1).

(** [None] stands for the [IndexError] of popping an empty heap. *)
Definition heappop (heap : list A) : option (A * list A) :=
  match last heap with
  | None => None
  | Some lastelt =>
      let heap := removelast heap in
      match heap with
      | returnitem :: _ => Some (returnitem, _siftup (<[0%nat := lastelt]> heap) 0)
      | [] => Some (lastelt, heap)
      end
  end.
End Heapq.

(** ** control_systems.py: GridNode and PipeRouter *)

Definition Qltb (a b : Q) : bool := (Qnum a * QDen b <? Qnum b * QDen a)%Z.

(** [int(q)]: truncation toward zero. *)
Definition py_int (q : Q) : Z := Z.quot (Qnum q) (Zpos (Qden q)).

Module GridNode.

Inductive t := Node (x y : Z) (g : Q) (h : Z) (f : Q) (parent : option t).

Definition x (n : t) : Z := let 'Node x _ _ _ _ _ := n in x.
Definition y (n : t) : Z := let 'Node _ y _ _ _ _ := n in y.
Definition g (n : t) : Q := let 'Node _ _ g _ _ _ := n in g.
Definition h (n : t) : Z := let 'Node _ _ _ h _ _ := n in h.
Definition f (n : t) : Q := let 'Node _ _ _ _ f _ := n in f.
Definition parent (n : t) : option t := let 'Node _ _ _ _ _ p := n in p.

Definition __init__ (x y : Z) (g : Q) (h : Z) (parent : option t) : t :=
  Node x y g h (g + inject_Z h)%Q parent.

Definition __lt__ (self other : t) : bool := Qltb (f self) (f other).

End GridNode.

Module PipeRouter.
Local Open Scope Z_scope.

Definition cell : Type := Z * Z.
Definition point : Type := Q * Q.

Record t := {
  grid_size : Z;
  width : Z;
  height : Z;
  obstacles : gset cell;
  pipes_grid : gset cell
}.

(** [PipeRouter(grid_size=10, width=2000, height=1500)] *)
Definition __init__ (grid_size width height : Z) : t :=
  {| grid_size := grid_size; width := width; height := height;
     obstacles := ∅; pipes_grid := ∅ |}.

Definition _heuristic (a b : cell) : Z :=
  Z.abs (a.1 - b.1) + Z.abs (a.2 - b.2).

Definition directions : list (Z * Z) := [(0, 1); (1, 0); (0, -1); (-1, 0)].

Definition _get_neighbors (self : t) (node : GridNode.t) : list (Z * Z * Q) :=
  fold_left
    (fun neighbors '(dx, dy) =>
       let new_x := GridNode.x node + dx in
       let new_y := GridNode.y node + dy in
       if (0 <=? new_x) && (new_x <? width self / grid_size self) &&
          (0 <=? new_y) && (new_y <? height self / grid_size self) then
         if negb (bool_decide ((new_x, new_y) ∈ obstacles self)) then
           let cost := if bool_decide ((new_x, new_y) ∈ pipes_grid self)
                       then (15 # 10)%Q else 1%Q in
           (neighbors ++ [(new_x, new_y, cost)])%list
         else neighbors
       else neighbors)
    directions [].

(** The body of [for nx, ny, cost in self._get_neighbors(current)]. *)
Definition neighbor_step (end_grid : cell) (prefer_straight : bool)
    (current : GridNode.t) (closed_set : gset cell)
    (open_set : list GridNode.t) (nb : Z * Z * Q) : list GridNode.t :=
  let '(nx, ny, cost) := nb in
  if bool_decide ((nx, ny) ∈ closed_set) then open_set
  else
    let tentative_g := (GridNode.g current + cost)%Q in
    let tentative_g :=
      match GridNode.parent current with
      | Some parent =>
          if prefer_straight then
            let dx1 := GridNode.x current - GridNode.x parent in
            let dy1 := GridNode.y current - GridNode.y parent in
            let dx2 := nx - GridNode.x current in
            let dy2 := ny - GridNode.y current in
            if negb ((dx1 =? dx2) && (dy1 =? dy2))
            then (tentative_g + (5 # 10))%Q else tentative_g
          else tentative_g
      | None => tentative_g
      end in
    let neighbor :=
      GridNode.__init__ nx ny tentative_g (_heuristic (nx, ny) end_grid)
                        (Some current) in
    heappush GridNode.__lt__ open_set neighbor.

(** What one run of the [while open_set] loop ends with. *)
Inductive search :=
| Reached (current : GridNode.t)
| Exhausted.

(** The [while open_set] loop; [None] when the fuel runs out. *)
Fixpoint astar (fuel : nat) (self : t) (end_grid : cell) (prefer_straight : bool)
    (open_set : list GridNode.t) (closed_set : gset cell) : option search :=
  match fuel with
  | O => None
  | S fuel' =>
      match heappop GridNode.__lt__ open_set with
      | None => Some Exhausted
      | Some (current, open_set) =>
          if bool_decide ((GridNode.x current, GridNode.y current) = end_grid)
          then Some (Reached current)
          else
            let closed_set := closed_set ∪ {[ (GridNode.x current, GridNode.y current) ]} in
            let open_set :=
              fold_left (neighbor_step end_grid prefer_straight current closed_set)
                        (_get_neighbors self current) open_set in
            astar fuel' self end_grid prefer_straight open_set closed_set
      end
  end.

(** [while current: path.append(..); current = current.parent] *)
Fixpoint walk_parents (self : t) (current : GridNode.t) : list cell :=
  (GridNode.x current * grid_size self, GridNode.y current * grid_size self) ::
  match GridNode.parent current with
  | Some p => walk_parents self p
  | None => []
  end.

Definition reconstruct (self : t) (current : GridNode.t) : list cell :=
  rev (walk_parents self current).

Definition _are_collinear (p1 p2 : cell) : bool :=
  (p1.1 =? p2.1) || (p1.2 =? p2.2).

(** The inner [while j < len(path)] loop, on [path[j:]]: the final [j]. *)
Fixpoint look_ahead (pi : cell) (rest : list cell) (j : nat) : nat :=
  match rest with
  | [] => j
  | pj :: rest' => if _are_collinear pi pj then look_ahead pi rest' (S j) else j
  end.

(** The outer [while i < len(path) - 1] loop; [None] when the fuel runs out. *)
Fixpoint smooth_loop (fuel : nat) (path : list cell) (i : nat)
    (smoothed : list cell) : option (list cell) :=
  match fuel with
  | O => None
  | S fuel' =>
      if (i + 1 <? length path)%nat then
        match path !! i with
        | Some pi =>
            let j := look_ahead pi (drop (i + 1) path) (i + 1) in
            match path !! (j - 1)%nat with
            | Some pj => smooth_loop fuel' path (j - 1) (smoothed ++ [pj])%list
            | None => None
            end
        | None => None
        end
      else Some smoothed
  end.

(** A turn of the outer loop either moves [i] forward or leaves the loop
    state where it was, for ever, so [len(path)] turns decide: [None] is a
    loop that does not end. *)
Definition _smooth_path (path : list cell) : option (list cell) :=
  if (length path <=? 2)%nat then Some path
  else
    match path with
    | p0 :: _ => smooth_loop (length path) path 0 [p0]
    | [] => Some path
    end.

Definition _fallback_path (start end_ : point) : list point :=
  let mid_x := ((start.1 + end_.1) / 2)%Q in
  [start; (mid_x, start.2); (mid_x, end_.2); end_].

Definition to_grid (self : t) (p : point) : cell :=
  (py_int (p.1 / inject_Z (grid_size self))%Q,
   py_int (p.2 / inject_Z (grid_size self))%Q).

Definition to_point (c : cell) : point := (inject_Z c.1, inject_Z c.2).

(** [path[i] = v] for [i] counted from the front ([0]) or the back ([-1]). *)
Definition setitem_first (path : list point) (v : point) : result (list point) :=
  match path with
  | [] => Raise IndexError
  | _ :: rest => Ok (v :: rest)
  end.

Definition setitem_last (path : list point) (v : point) : result (list point) :=
  match path with
  | [] => Raise IndexError
  | _ => Ok (<[(length path - 1)%nat := v]> path)
  end.

(** [find_path(start, end, prefer_straight)] with [fuel] turns of the A*
    loop: [None] when the fuel runs out or the smoothing loop does not end. *)
Definition find_path (fuel : nat) (self : t) (start end_ : point)
    (prefer_straight : bool) : option (result (list point)) :=
  if grid_size self =? 0 then Some (Raise ZeroDivisionError)
  else
    let start_grid := to_grid self start in
    let end_grid := to_grid self end_ in
    let start_node :=
      GridNode.__init__ start_grid.1 start_grid.2 0 (_heuristic start_grid end_grid) None in
    let open_set := heappush GridNode.__lt__ [] start_node in
    match astar fuel self end_grid prefer_straight open_set ∅ with
    | None => None
    | Some (Reached current) =>
        let path := reconstruct self current in
        match (if prefer_straight then _smooth_path path else Some path) with
        | None => None
        | Some path =>
            Some (path ← setitem_first (map to_point path) start;
                  setitem_last path end_)
        end
    | Some Exhausted => Some (Ok (_fallback_path start end_))
    end.

End PipeRouter.

(** * Properties *)

(** ** Loop inference *)

Section LoopInference.
Import ProfessionalPnidComponent.

(** An instrumentation line between two components, in either direction. *)
Definition signal_pipe (p : Pipe) (a b : Component) : Prop :=
  ProfessionalPnidPipe.line_type p = "instrumentation" ∧
  ((ProfessionalPnidPipe.from_comp p = Some a ∧ ProfessionalPnidPipe.to_comp p = Some b) ∨
   (ProfessionalPnidPipe.from_comp p = Some b ∧ ProfessionalPnidPipe.to_comp p = Some a)).

Lemma Permutation_two_inv {A} (l : list A) a b :
  l ≡ₚ [a; b] → l = [a; b] ∨ l = [b; a].
Proof.
  intros H. symmetry in H. apply permutations_Permutation in H. cbn in H.
  repeat (apply elem_of_cons in H as [H|H]; [subst; tauto|]).
  by apply not_elem_of_nil in H.
Qed.

Lemma Permutation_three_inv {A} (l : list A) a b c :
  l ≡ₚ [a; b; c] →
  l = [a; b; c] ∨ l = [a; c; b] ∨ l = [b; a; c] ∨
  l = [b; c; a] ∨ l = [c; a; b] ∨ l = [c; b; a].
Proof.
  intros H. symmetry in H. apply permutations_Permutation in H. cbn in H.
  repeat (apply elem_of_cons in H as [H|H]; [subst; tauto|]).
  by apply not_elem_of_nil in H.
Qed.

Example parse_FIC_101 :
  _parse_instrument_function "FIC-101" =
  Some {| variable := "F"; modifiers := "IC"; number := "101";
          is_controller := true; is_transmitter := false; is_valve := false;
          is_indicator := true; is_alarm := false |}.
Proof. reflexivity. Qed.

Example parse_FCV_101_is_a_controller :
  is_controller <$> _parse_instrument_function "FCV-101" = Some true.
Proof. reflexivity. Qed.

(** C1. The components FIC-101, FT-101 and FCV-101 (ids equal to the tags,
    FCV-101 of a valve component type, the other two of any type), stored
    in any order, with one instrumentation pipe between FIC-101 and FT-101
    and one between FIC-101 and FCV-101, in any order and direction: the
    analysis ends normally with exactly one control loop, whose [loop_id]
    is FC-101 and whose [loop_type] is Flow. *)
Theorem loop_inference_FIC_101 (fic ft fcv : Component) (p1 p2 : Pipe)
    (components : dict Component) (pipes : list Pipe) :
  id fic = "FIC-101" → tag fic = "FIC-101" →
  id ft = "FT-101" → tag ft = "FT-101" →
  id fcv = "FCV-101" → tag fcv = "FCV-101" →
  str_in "valve" (component_type fcv) = true →
  components ≡ₚ [(id fic, fic); (id ft, ft); (id fcv, fcv)] →
  signal_pipe p1 fic ft → signal_pipe p2 fic fcv → pipes ≡ₚ [p1; p2] →
  ∃ a loop,
    ControlSystemAnalyzer.__init__ components pipes = Ok a ∧
    ControlSystemAnalyzer.control_loops a = [loop] ∧
    ControlLoop.loop_id loop = "FC-101" ∧
    ControlLoop.loop_type loop = FLOW.
Proof.
  intros Hi1 Ht1 Hi2 Ht2 Hi3 Ht3 Hv Hc [Hl1 Hp1] [Hl2 Hp2] Hp.
  destruct fic as [i1 t1 ty1 ? ? ? ? ? ?], ft as [i2 t2 ty2 ? ? ? ? ? ?],
           fcv as [i3 t3 ty3 ? ? ? ? ? ?].
  destruct p1 as [? ? lt1 f1 o1 ? ? ?], p2 as [? ? lt2 f2 o2 ? ? ?].
  cbn in *. subst.
  apply Permutation_two_inv in Hp.
  apply Permutation_three_inv in Hc.
  destruct (str_in "valve" ty1) eqn:E1, (str_in "valve" ty2) eqn:E2.
  all: destruct Hp as [-> | ->].
  all: destruct Hp1 as [[-> ->] | [-> ->]], Hp2 as [[-> ->] | [-> ->]].
  all: destruct Hc as [-> | [-> | [-> | [-> | [-> | ->]]]]].
  all: eexists _, _; cbv -[str_in]; rewrite ?E1, ?E2, ?Hv;
       cbv -[str_in]; rewrite ?E1, ?E2, ?Hv; split_and!; reflexivity.
Qed.

Definition instrument (name type : string) : Component :=
  {| id := name; tag := name; component_type := type;
     x := 0; y := 0; width := 60; height := 60; rotation := 0;
     tag_info := None |}.

Definition instrument_line (a : option Component) (b : option Component) : Pipe :=
  {| ProfessionalPnidPipe.id := "S-1"; ProfessionalPnidPipe.label := "";
     ProfessionalPnidPipe.line_type := "instrumentation";
     ProfessionalPnidPipe.from_comp := a; ProfessionalPnidPipe.to_comp := b;
     ProfessionalPnidPipe.from_port := "default";
     ProfessionalPnidPipe.to_port := "default";
     ProfessionalPnidPipe.points := [] |}.

Definition FIC_101 := instrument "FIC-101" "instrument".
Definition FT_101 := instrument "FT-101" "instrument".
Definition FCV_101 := instrument "FCV-101" "control_valve".

Lemma loop_inference_FIC_101_witness :
  ∃ a loop,
    ControlSystemAnalyzer.__init__
      [("FIC-101", FIC_101); ("FT-101", FT_101); ("FCV-101", FCV_101)]
      [instrument_line (Some FT_101) (Some FIC_101);
       instrument_line (Some FIC_101) (Some FCV_101)] = Ok a ∧
    ControlSystemAnalyzer.control_loops a = [loop] ∧
    ControlLoop.loop_id loop = "FC-101" ∧
    ControlLoop.loop_type loop = FLOW.
Proof.
  apply (loop_inference_FIC_101 FIC_101 FT_101 FCV_101
           (instrument_line (Some FT_101) (Some FIC_101))
           (instrument_line (Some FIC_101) (Some FCV_101)));
    try reflexivity.
  - split; [reflexivity | right; split; reflexivity].
  - split; [reflexivity | left; split; reflexivity].
Defined.

(** When FCV-101 is a valve by its tag only, the [elif] chain files it
    under the controllers (its modifiers contain C) and no loop comes out. *)
Example loop_inference_tag_only_valve :
  ControlSystemAnalyzer.control_loops <$>
    (match ControlSystemAnalyzer.__init__
             [("FIC-101", FIC_101); ("FT-101", FT_101);
              ("FCV-101", instrument "FCV-101" "instrument")]
             [instrument_line (Some FT_101) (Some FIC_101);
              instrument_line (Some FIC_101)
                              (Some (instrument "FCV-101" "instrument"))]
     with Ok a => Some a | Raise _ => None end) = Some [].
Proof. reflexivity. Qed.

(** C7. A single controller FIC-101 and one instrumentation pipe that
    starts at it and whose other end does not resolve: the walk over the
    instrumentation pipes reads [pipe.to_comp.id] on [None], so building
    the analyzer, and with it building the validator, ends with an
    AttributeError. *)
Theorem analysis_aborts_on_dangling_instrument_pipe :
  ControlSystemAnalyzer._find_connected_instruments
    [instrument_line (Some FIC_101) None] "FIC-101" = Raise AttributeError ∧
  ControlSystemAnalyzer.__init__
    [("FIC-101", FIC_101)] [instrument_line (Some FIC_101) None]
    = Raise AttributeError ∧
  PnIDValidator.__init__
    [("FIC-101", FIC_101)] [instrument_line (Some FIC_101) None]
    = Raise AttributeError.
Proof. split_and!; reflexivity. Qed.

End LoopInference.


(** ** Completeness of the emitted loops *)

Section LoopCompleteness.
Import ProfessionalPnidComponent.

Lemma for_each_invariant {S A} (P : S → Prop) (f : S → A → result S)
    (l : list A) (s s' : S) :
  (∀ s a s', a ∈ l → P s → f s a = Ok s' → P s') →
  P s → for_each f l s = Ok s' → P s'.
Proof.
  revert s. induction l as [|a l IH]; intros s Hf Hs Hrun; cbn in Hrun.
  - by simplify_eq.
  - destruct (f s a) as [s1|e] eqn:E; cbn in Hrun; [|done].
    apply (IH s1); [|by eapply Hf; [left| |]|done].
    intros ???? ; apply Hf. by right.
Qed.

Lemma dict_set_keys {V} (d : dict V) (k : string) (v : V) (k' : string) :
  k' ∈ (dict_set d k v).*1 → k' = k ∨ k' ∈ d.*1.
Proof.
  induction d as [|[k0 v0] d IH]; cbn.
  - rewrite list_elem_of_singleton. by left.
  - destruct (String.eqb k k0); cbn; rewrite !elem_of_cons; intros [?|?]; auto.
    destruct IH; auto.
Qed.

Lemma _preprocess_components_keys (components : dict Component) :
  (ControlSystemAnalyzer._preprocess_components components).*1 = components.*1.
Proof.
  unfold ControlSystemAnalyzer._preprocess_components.
  induction components as [|[k c] l IH]; [done|]. cbn.
  rewrite <- IH. by destruct (is_instrument c).
Qed.

Lemma classify_step_controllers (r : ControlSystemAnalyzer.roles)
    (item : string * Component) (k : string) :
  k ∈ (ControlSystemAnalyzer.controllers
         (ControlSystemAnalyzer.classify_step r item)).*1 →
  k = item.1 ∨ k ∈ (ControlSystemAnalyzer.controllers r).*1.
Proof.
  destruct item as [comp_id comp]. unfold ControlSystemAnalyzer.classify_step.
  destruct (if is_instrument comp then tag_info comp else None) as [ti|];
    [|by right].
  destruct (is_controller ti); cbn; [apply dict_set_keys|].
  destruct (is_transmitter ti); cbn; [by right|].
  destruct (is_valve ti); cbn; [by right|].
  destruct (is_alarm ti); cbn; by right.
Qed.

Lemma classify_controllers (components : dict Component) (k : string) :
  k ∈ (ControlSystemAnalyzer.controllers
         (ControlSystemAnalyzer.classify components)).*1 →
  k ∈ components.*1.
Proof.
  unfold ControlSystemAnalyzer.classify.
  set (r0 := {| ControlSystemAnalyzer.controllers := [] |}).
  assert (Hgen : ∀ l r,
    k ∈ (ControlSystemAnalyzer.controllers
           (fold_left ControlSystemAnalyzer.classify_step l r)).*1 →
    k ∈ l.*1 ∨ k ∈ (ControlSystemAnalyzer.controllers r).*1).
  { induction l as [|item l IH]; intros r H; cbn in *; [by right|].
    apply IH in H as [H|H]; [left; by right|].
    apply classify_step_controllers in H as [->|H]; [left; by left|by right]. }
  intros H. apply Hgen in H as [H|H]; [done|]. by apply not_elem_of_nil in H.
Qed.

(** What the claim does not state first: a loop with both elements
    present and a controller that is the key of a component. *)
Definition loop_complete (components : dict Component) (loop : ControlLoop.t) : Prop :=
  str_truthy (ControlLoop.primary_element loop) = true ∧
  str_truthy (ControlLoop.final_element loop) = true ∧
  ControlLoop.controller loop ∈ components.*1.

Lemma loop_step_complete (components0 components : dict Component)
    (pipes : list Pipe) (r : ControlSystemAnalyzer.roles)
    (loops loops' : list ControlLoop.t) (item : string * (Component * TagInfo)) :
  item.1 ∈ components0.*1 →
  Forall (loop_complete components0) loops →
  ControlSystemAnalyzer.loop_step components pipes r loops item = Ok loops' →
  Forall (loop_complete components0) loops'.
Proof.
  destruct item as [controller_id [c info]]. cbn. intros Hk Hl.
  unfold ControlSystemAnalyzer.loop_step.
  destruct (ControlSystemAnalyzer._find_connected_instruments _ _) as [conn|];
    cbn; [|done].
  destruct (fold_left _ conn _) as [[tid|] [fid|]]; try (intros [= <-]; done).
  destruct (str_truthy tid) eqn:Et, (str_truthy fid) eqn:Ef; cbn;
    try (intros [= <-]; done).
  intros [= <-]. apply Forall_app; split; [done|].
  apply Forall_singleton. by split_and!.
Qed.

Lemma analyzer_loops_complete (components : dict Component) (pipes : list Pipe)
    (a : ControlSystemAnalyzer.t) :
  ControlSystemAnalyzer.__init__ components pipes = Ok a →
  Forall (loop_complete components) (ControlSystemAnalyzer.control_loops a).
Proof.
  unfold ControlSystemAnalyzer.__init__, ControlSystemAnalyzer._analyze_control_systems.
  cbn.
  destruct (for_each (ControlSystemAnalyzer.loop_step _ _ _) _ _) as [loops|] eqn:E;
    cbn; [|done].
  destruct (for_each (ControlSystemAnalyzer.interlock_step _ _) _ _) as [ils|];
    cbn; [|done].
  intros [= <-]. cbn.
  eapply (for_each_invariant (Forall (loop_complete components))); [| |exact E].
  - intros s item s' Hin Hs. apply loop_step_complete; [|done].
    rewrite <- _preprocess_components_keys.
    apply classify_controllers, list_elem_of_fmap. by exists item.
  - constructor.
Qed.

Lemma loop_check_step_complete (self : PnIDValidator.t) (loop : ControlLoop.t) :
  str_truthy (ControlLoop.primary_element loop) = true →
  str_truthy (ControlLoop.final_element loop) = true →
  PnIDValidator.loop_check_step self loop = self.
Proof. unfold PnIDValidator.loop_check_step. by intros -> ->. Qed.

(** C8. Every loop the analysis emits has a non-empty [primary_element] and
    [final_element], and its [controller] is the key of a component (so it is
    non-empty when no component key is the empty string); a controller for
    which the walk over its neighbours leaves the transmitter or the final
    element unset adds no loop; and [validate_control_loops] appends nothing
    to [errors] or [warnings]. *)
Theorem emitted_loops_are_complete (components : dict Component) (pipes : list Pipe) :
  (∀ a, ControlSystemAnalyzer.__init__ components pipes = Ok a →
     Forall (λ loop,
               str_truthy (ControlLoop.primary_element loop) = true ∧
               str_truthy (ControlLoop.final_element loop) = true ∧
               ControlLoop.controller loop ∈ components.*1 ∧
               ("" ∉ components.*1 →
                str_truthy (ControlLoop.controller loop) = true))
            (ControlSystemAnalyzer.control_loops a)) ∧
  (∀ r loops controller_id controller info connected,
     ControlSystemAnalyzer._find_connected_instruments pipes controller_id
       = Ok connected →
     (let '(transmitter_id, final_element_id) :=
        fold_left (ControlSystemAnalyzer.match_step components r info)
                  connected (None, None) in
      opt_truthy transmitter_id && opt_truthy final_element_id) = false →
     ControlSystemAnalyzer.loop_step components pipes r loops
       (controller_id, (controller, info)) = Ok loops) ∧
  (∀ self self',
     PnIDValidator.validate_control_loops self = Ok self' →
     PnIDValidator.errors self' = PnIDValidator.errors self ∧
     PnIDValidator.warnings self' = PnIDValidator.warnings self).
Proof.
  split_and!.
  - intros a Ha. apply analyzer_loops_complete in Ha.
    eapply Forall_impl; [exact Ha|]. intros loop (H1 & H2 & H3). split_and!; try done.
    intros Hne. destruct (ControlLoop.controller loop); [done|reflexivity].
  - intros r loops cid c info connected Hc.
    unfold ControlSystemAnalyzer.loop_step. rewrite Hc. cbn.
    destruct (fold_left _ connected _) as [[tid|] [fid|]]; cbn; try done.
    by intros ->.
  - intros self self'. unfold PnIDValidator.validate_control_loops.
    destruct (ControlSystemAnalyzer.__init__ _ _) as [a|] eqn:Ha; cbn; [|done].
    apply analyzer_loops_complete in Ha. intros [= <-].
    set (s0 := {| PnIDValidator.components := _ |}).
    assert (Hfold : ∀ l s, Forall (loop_complete (PnIDValidator.components self)) l →
              fold_left PnIDValidator.loop_check_step l s = s).
    { induction l as [|loop l IH]; intros s Hl; [done|]. cbn.
      inversion Hl as [|?? (H1 & H2 & _) Hl']; subst.
      rewrite loop_check_step_complete by done. by apply IH. }
    rewrite Hfold by done. done.
Qed.

Lemma emitted_loops_are_complete_witness :
  ∃ loop,
    ControlSystemAnalyzer.control_loops <$>
      (match ControlSystemAnalyzer.__init__
               [("FIC-101", FIC_101); ("FT-101", FT_101); ("FCV-101", FCV_101)]
               [instrument_line (Some FT_101) (Some FIC_101);
                instrument_line (Some FIC_101) (Some FCV_101)]
       with Ok a => Some a | Raise _ => None end) = Some [loop] ∧
    str_truthy (ControlLoop.primary_element loop) = true ∧
    str_truthy (ControlLoop.final_element loop) = true ∧
    str_truthy (ControlLoop.controller loop) = true.
Proof.
  pose proof (proj1 (emitted_loops_are_complete
    [("FIC-101", FIC_101); ("FT-101", FT_101); ("FCV-101", FCV_101)]
    [instrument_line (Some FT_101) (Some FIC_101);
     instrument_line (Some FIC_101) (Some FCV_101)])) as H.
  destruct (ControlSystemAnalyzer.__init__ _ _) as [a|] eqn:E; [|discriminate E].
  specialize (H a eq_refl).
  injection E as <-. cbn in H.
  apply Forall_cons in H as [(H1 & H2 & _ & H4) _].
  eexists. split; [reflexivity|]. split_and!; [exact H1|exact H2|].
  apply H4. cbn. intros Hin.
  repeat (apply elem_of_cons in Hin as [Hin|Hin]; [discriminate Hin|]).
  by apply not_elem_of_nil in Hin.
Defined.

(** The controller need not be non-empty: a controller stored under the
    empty key (an id that was blank before [strip()]) yields a loop whose
    [controller] is the empty string. *)
Definition blank_FIC : Component :=
  {| id := ""; tag := "FIC-101"; component_type := "instrument";
     x := 0; y := 0; width := 60; height := 60; rotation := 0;
     tag_info := None |}.

Lemma emitted_loop_with_empty_controller :
  ¬ (∀ components pipes a,
       ControlSystemAnalyzer.__init__ components pipes = Ok a →
       Forall (λ loop,
                 str_truthy (ControlLoop.primary_element loop) = true ∧
                 str_truthy (ControlLoop.controller loop) = true ∧
                 str_truthy (ControlLoop.final_element loop) = true)
              (ControlSystemAnalyzer.control_loops a)).
Proof.
  intros H.
  specialize (H [("", blank_FIC); ("FT-101", FT_101); ("FCV-101", FCV_101)]
                [instrument_line (Some FT_101) (Some blank_FIC);
                 instrument_line (Some blank_FIC) (Some FCV_101)] _ eq_refl).
  cbn in H. apply Forall_cons in H as [(_ & H & _) _]. discriminate H.
Qed.

End LoopCompleteness.


(** ** Ports *)

Section Ports.
Import ProfessionalPnidComponent.
Variables radians cos sin : Q → Q.

Lemma ports_have_default (self : Component) :
  ∃ p, dict_get (ports self) "default" = Some p.
Proof.
  unfold ports, _define_professional_ports.
  destruct (is_instrument self); [by eexists|].
  destruct (str_in "pump" _); [by eexists|].
  destruct (str_in "valve" _); [by eexists|].
  destruct (str_in "vessel" _ || str_in "tank" _); [by eexists|].
  destruct (str_in "filter" _); by eexists.
Qed.

(** C10. For every component and port name, the port table has a [default]
    entry, the lookup [ports.get(port_name) or ports.get('default')] finds a
    port (the centre fallback of the last line is never needed), and the
    coordinates returned for a name that is not in the table are those
    returned for [default]. *)
Theorem get_port_coords_defaults (self : Component) (port_name : string) :
  (∃ p, dict_get (ports self) "default" = Some p) ∧
  (∃ p, or_else (dict_get (ports self) port_name)
                (dict_get (ports self) "default") = Some p ∧
        get_port_coords radians cos sin self port_name =
        if negb (Qeq_bool (rotation self) 0) then
          (x self + ((dx p - width self / 2) * cos (radians (rotation self))
                     - (dy p - height self / 2) * sin (radians (rotation self))
                     + width self / 2),
           y self + ((dx p - width self / 2) * sin (radians (rotation self))
                     + (dy p - height self / 2) * cos (radians (rotation self))
                     + height self / 2))%Q
        else (x self + dx p, y self + dy p)%Q) ∧
  get_port_coords radians cos sin self port_name =
  get_port_coords radians cos sin self
    (if dict_mem (ports self) port_name then port_name else "default").
Proof.
  destruct (ports_have_default self) as [d Hd]. split_and!.
  - by exists d.
  - unfold get_port_coords.
    destruct (dict_get (ports self) port_name) as [p|] eqn:E; cbn.
    + by exists p.
    + exists d. by rewrite Hd.
  - unfold get_port_coords, dict_mem.
    destruct (dict_get (ports self) port_name) as [p|] eqn:E; [by rewrite E|].
    by rewrite Hd.
Qed.

End Ports.

Example valve_port_fallback :
  ProfessionalPnidComponent.get_port_coords (λ q, q) (λ q, q) (λ q, q)
    (instrument "V-001" "valve_gate") "discharge" = (0 + 0, 0 + 60 / 2)%Q.
Proof. reflexivity. Qed.


(** ** Re-running the validator *)

Section ValidatorRerun.
Import ProfessionalPnidComponent PnIDValidator.

(** The validator [s] with [e] and [w] in front of its two lists. *)
Definition prepend (e w : list string) (s : PnIDValidator.t) : PnIDValidator.t :=
  {| components := components s; pipes := pipes s;
     errors := e ++ errors s; warnings := w ++ warnings s |}.

Lemma add_error_prepend e w s m :
  add_error (prepend e w s) m = prepend e w (add_error s m).
Proof. unfold add_error, prepend; cbn. by rewrite app_assoc. Qed.

Lemma add_warning_prepend e w s m :
  add_warning (prepend e w s) m = prepend e w (add_warning s m).
Proof. unfold add_warning, prepend; cbn. by rewrite app_assoc. Qed.

Ltac frame_cases :=
  repeat case_match; simplify_eq;
  rewrite ?add_error_prepend, ?add_warning_prepend; try done.

Lemma fold_left_prepend {A} (f : PnIDValidator.t → A → PnIDValidator.t) e w l s :
  (∀ s a, f (prepend e w s) a = prepend e w (f s a)) →
  fold_left f l (prepend e w s) = prepend e w (fold_left f l s).
Proof.
  intros Hf. revert s. induction l as [|a l IH]; intros s; [done|]. cbn [fold_left].
  by rewrite Hf, IH.
Qed.

Lemma tag_step_prepend e w s tn item :
  tag_step (prepend e w s, tn) item =
  (prepend e w (tag_step (s, tn) item).1, (tag_step (s, tn) item).2).
Proof. unfold tag_step. destruct item as [comp_id comp]. frame_cases. Qed.

Lemma fold_tag_step_prepend e w l s tn :
  fold_left tag_step l (prepend e w s, tn) =
  (prepend e w (fold_left tag_step l (s, tn)).1, (fold_left tag_step l (s, tn)).2).
Proof.
  revert s tn. induction l as [|item l IH]; intros s tn; [done|]. cbn [fold_left].
  rewrite tag_step_prepend, IH. by destruct (tag_step (s, tn) item).
Qed.

Lemma validate_instrument_tags_prepend e w s :
  validate_instrument_tags (prepend e w s) = prepend e w (validate_instrument_tags s).
Proof.
  unfold validate_instrument_tags.
  change (components (prepend e w s)) with (components s).
  by rewrite fold_tag_step_prepend.
Qed.

Lemma flow_step_prepend e w s pipe :
  flow_step (prepend e w s) pipe = prepend e w (flow_step s pipe).
Proof. unfold flow_step. frame_cases. Qed.

Lemma validate_flow_directions_prepend e w s :
  validate_flow_directions (prepend e w s) = prepend e w (validate_flow_directions s).
Proof.
  unfold validate_flow_directions.
  change (pipes (prepend e w s)) with (pipes s).
  apply fold_left_prepend. intros. apply flow_step_prepend.
Qed.

Lemma sizing_step_prepend e w s ls pipe :
  sizing_step (prepend e w s, ls) pipe =
  (prepend e w (sizing_step (s, ls) pipe).1, (sizing_step (s, ls) pipe).2).
Proof. unfold sizing_step. frame_cases. Qed.

Lemma fold_sizing_step_prepend e w l s ls :
  fold_left sizing_step l (prepend e w s, ls) =
  (prepend e w (fold_left sizing_step l (s, ls)).1,
   (fold_left sizing_step l (s, ls)).2).
Proof.
  revert s ls. induction l as [|p l IH]; intros s ls; [done|]. cbn [fold_left].
  rewrite sizing_step_prepend, IH. by destruct (sizing_step (s, ls) p).
Qed.

Lemma validate_line_sizing_prepend e w s :
  validate_line_sizing (prepend e w s) = prepend e w (validate_line_sizing s).
Proof.
  unfold validate_line_sizing.
  change (pipes (prepend e w s)) with (pipes s).
  by rewrite fold_sizing_step_prepend.
Qed.

Lemma loop_check_step_prepend e w s loop :
  loop_check_step (prepend e w s) loop = prepend e w (loop_check_step s loop).
Proof. unfold loop_check_step. frame_cases. Qed.

Lemma validate_control_loops_prepend e w s :
  validate_control_loops (prepend e w s) =
  match validate_control_loops s with
  | Ok s' => Ok (prepend e w s')
  | Raise x => Raise x
  end.
Proof.
  unfold validate_control_loops.
  change (components (prepend e w s)) with (components s).
  change (pipes (prepend e w s)) with (pipes s).
  destruct (ControlSystemAnalyzer.__init__ _ _) as [a|]; cbn; [|done].
  f_equal.
  apply (fold_left_prepend loop_check_step e w
           (ControlSystemAnalyzer.control_loops a)
           {| components := ControlSystemAnalyzer.components a;
              pipes := pipes s; errors := errors s; warnings := warnings s |}).
  intros. apply loop_check_step_prepend.
Qed.

Lemma safety_step_prepend e w s vessel :
  safety_step (prepend e w s) vessel = prepend e w (safety_step s vessel).
Proof.
  unfold safety_step. change (pipes (prepend e w s)) with (pipes s). frame_cases.
Qed.

Lemma validate_safety_systems_prepend e w s :
  validate_safety_systems (prepend e w s) = prepend e w (validate_safety_systems s).
Proof.
  unfold validate_safety_systems.
  change (components (prepend e w s)) with (components s).
  apply fold_left_prepend. intros. apply safety_step_prepend.
Qed.

Lemma validate_all_prepend e w s :
  validate_all (prepend e w s) =
  match validate_all s with
  | Ok (s', r) =>
      Ok (prepend e w s',
          {| r_errors := self_errors; r_warnings := self_warnings;
             is_valid := Nat.eqb (length (e ++ errors s')) 0 |})
  | Raise x => Raise x
  end.
Proof.
  unfold validate_all.
  rewrite validate_instrument_tags_prepend, validate_flow_directions_prepend,
    validate_line_sizing_prepend, validate_control_loops_prepend.
  destruct (validate_control_loops _) as [s'|]; unfold mbind, result_bind;
    cbv beta iota; [|done].
  by rewrite validate_safety_systems_prepend.
Qed.

(** *** What a validation run leaves of the components and the pipes *)

Lemma is_instrument_set_tag_info c ti :
  is_instrument (ControlSystemAnalyzer.set_tag_info c ti) = is_instrument c.
Proof. done. Qed.

Lemma _preprocess_components_idempotent (components : dict Component) :
  ControlSystemAnalyzer._preprocess_components
    (ControlSystemAnalyzer._preprocess_components components) =
  ControlSystemAnalyzer._preprocess_components components.
Proof.
  unfold ControlSystemAnalyzer._preprocess_components.
  induction components as [|[k c] l IH]; [done|]. cbn [map]. rewrite IH. f_equal.
  destruct (is_instrument c) eqn:E; cbn [map];
    rewrite is_instrument_set_tag_info, E; done.
Qed.

Lemma analyzer_components components pipes a :
  ControlSystemAnalyzer.__init__ components pipes = Ok a →
  ControlSystemAnalyzer.components a =
  ControlSystemAnalyzer._preprocess_components components.
Proof.
  unfold ControlSystemAnalyzer.__init__, ControlSystemAnalyzer._analyze_control_systems.
  cbn.
  destruct (for_each (ControlSystemAnalyzer.loop_step _ _ _) _ _); cbn; [|done].
  destruct (for_each (ControlSystemAnalyzer.interlock_step _ _) _ _); cbn; [|done].
  by intros [= <-].
Qed.

Definition same_inputs (s s' : PnIDValidator.t) : Prop :=
  components s' = components s ∧ pipes s' = pipes s.

Lemma fold_same_inputs {A} (f : PnIDValidator.t → A → PnIDValidator.t) l s :
  (∀ s a, same_inputs s (f s a)) → same_inputs s (fold_left f l s).
Proof.
  intros Hf. revert s. induction l as [|a l IH]; intros s; [done|]. cbn.
  destruct (IH (f s a)) as [H1 H2], (Hf s a) as [H3 H4].
  split; congruence.
Qed.

Lemma fold_pair_same_inputs {A B} (f : PnIDValidator.t * B → A → PnIDValidator.t * B)
    l s b :
  (∀ s b a, same_inputs s (f (s, b) a).1) → same_inputs s (fold_left f l (s, b)).1.
Proof.
  intros Hf. revert s b. induction l as [|a l IH]; intros s b; [done|]. cbn.
  specialize (Hf s b a). destruct (f (s, b) a) as [s1 b1].
  destruct (IH s1 b1) as [H1 H2], Hf as [H3 H4]. cbn in *.
  split; congruence.
Qed.

Ltac same_cases := repeat case_match; simplify_eq; try done.

Lemma validate_instrument_tags_inputs s : same_inputs s (validate_instrument_tags s).
Proof.
  apply fold_pair_same_inputs. intros s0 b [comp_id comp].
  unfold tag_step. same_cases.
Qed.

Lemma validate_flow_directions_inputs s : same_inputs s (validate_flow_directions s).
Proof. apply fold_same_inputs. intros s0 p. unfold flow_step. same_cases. Qed.

Lemma validate_line_sizing_inputs s : same_inputs s (validate_line_sizing s).
Proof.
  apply fold_pair_same_inputs. intros s0 b p. unfold sizing_step. same_cases.
Qed.

Lemma validate_safety_systems_inputs s : same_inputs s (validate_safety_systems s).
Proof. apply fold_same_inputs. intros s0 v. unfold safety_step. same_cases. Qed.

Lemma validate_control_loops_inputs s s' :
  validate_control_loops s = Ok s' →
  components s' = ControlSystemAnalyzer._preprocess_components (components s) ∧
  pipes s' = pipes s.
Proof.
  unfold validate_control_loops.
  destruct (ControlSystemAnalyzer.__init__ _ _) as [a|] eqn:Ha; cbn; [|done].
  intros [= <-].
  set (s0 := {| components := ControlSystemAnalyzer.components a |}).
  destruct (fold_same_inputs loop_check_step (ControlSystemAnalyzer.control_loops a) s0)
    as [H1 H2].
  { intros s1 loop. unfold loop_check_step. same_cases. }
  rewrite H1, H2. split; [|done]. by eapply analyzer_components.
Qed.

Lemma validate_all_inputs s s' r :
  validate_all s = Ok (s', r) →
  components s' = ControlSystemAnalyzer._preprocess_components (components s) ∧
  pipes s' = pipes s.
Proof.
  unfold validate_all.
  destruct (validate_control_loops _) as [s1|] eqn:E; cbn; [|done].
  intros [= <- <-].
  destruct (validate_safety_systems_inputs s1) as [A1 A2].
  apply validate_control_loops_inputs in E as [B1 B2].
  destruct (validate_line_sizing_inputs
              (validate_flow_directions (validate_instrument_tags s))) as [C1 C2].
  destruct (validate_flow_directions_inputs (validate_instrument_tags s)) as [D1 D2].
  destruct (validate_instrument_tags_inputs s) as [E1 E2].
  split; congruence.
Qed.

Lemma validate_all_report s s' r :
  validate_all s = Ok (s', r) →
  r = {| r_errors := self_errors; r_warnings := self_warnings;
         is_valid := Nat.eqb (length (errors s')) 0 |}.
Proof.
  unfold validate_all.
  destruct (validate_control_loops _) as [s1|]; cbn; [|done].
  by intros [= <- <-].
Qed.

Lemma validator_init components0 pipes0 v :
  PnIDValidator.__init__ components0 pipes0 = Ok v →
  v = {| components := ControlSystemAnalyzer._preprocess_components components0;
         pipes := pipes0; errors := []; warnings := [] |} ∧
  PnIDValidator.__init__ (components v) pipes0 = Ok v.
Proof.
  unfold PnIDValidator.__init__.
  destruct (ControlSystemAnalyzer.__init__ components0 pipes0) as [a|] eqn:Ha;
    cbn; [|done].
  intros [= <-]. cbn.
  pose proof (analyzer_components _ _ _ Ha) as Hc. rewrite Hc. split; [done|].
  unfold ControlSystemAnalyzer.__init__ in *.
  rewrite _preprocess_components_idempotent, Ha. cbn. by rewrite Hc.
Qed.

(** C2, as the code has it.  For a validator built over a component/pipe
    set that then ran [validate_all()] once: a second [validate_all()] on the
    same validator ends normally and returns lists that hold the messages of
    the first call twice (the first call's list followed by the same
    messages again), with the same [is_valid]; the dict returned by the
    first call holds the same two list objects, so read after the second
    call it shows the doubled lists too.  A validator newly built over the
    same component objects and pipes returns, from its first
    [validate_all()], exactly the lists of the first call. *)
Theorem validate_all_rerun (components0 : dict Component) (pipes0 : list Pipe)
    (v v1 : PnIDValidator.t) (r1 : report) :
  PnIDValidator.__init__ components0 pipes0 = Ok v →
  validate_all v = Ok (v1, r1) →
  (∃ v2 r2,
     validate_all v1 = Ok (v2, r2) ∧
     deref v2 (r_errors r2) = (deref v1 (r_errors r1) ++ deref v1 (r_errors r1))%list ∧
     deref v2 (r_warnings r2) =
       (deref v1 (r_warnings r1) ++ deref v1 (r_warnings r1))%list ∧
     is_valid r2 = is_valid r1 ∧
     deref v2 (r_errors r1) = deref v2 (r_errors r2) ∧
     deref v2 (r_warnings r1) = deref v2 (r_warnings r2)) ∧
  (∃ w w1 s1,
     PnIDValidator.__init__ (components v1) (pipes v1) = Ok w ∧
     validate_all w = Ok (w1, s1) ∧
     deref w1 (r_errors s1) = deref v1 (r_errors r1) ∧
     deref w1 (r_warnings s1) = deref v1 (r_warnings r1) ∧
     is_valid s1 = is_valid r1).
Proof.
  intros Hinit Hrun.
  destruct (validator_init _ _ _ Hinit) as [Hv Hagain].
  destruct (validate_all_inputs _ _ _ Hrun) as [Hc Hp].
  pose proof (validate_all_report _ _ _ Hrun) as Hr1.
  assert (Hcv : components v1 = components v).
  { rewrite Hc. rewrite Hv at 1. cbn. rewrite _preprocess_components_idempotent.
    by rewrite Hv. }
  assert (Hpv : pipes v = pipes0) by (by rewrite Hv).
  assert (He : errors v = [] ∧ warnings v = []) by (by rewrite Hv).
  split.
  - assert (Hv1 : v1 = prepend (errors v1) (warnings v1) v).
    { destruct v1 as [c1 p1 e1 w1]. cbn in Hcv, Hp |- *. unfold prepend.
      destruct He as [-> ->]. rewrite !app_nil_r. congruence. }
    replace (validate_all v1)
      with (validate_all (prepend (errors v1) (warnings v1) v))
      by (by rewrite <- Hv1).
    rewrite validate_all_prepend, Hrun.
    eexists _, _. split; [reflexivity|]. rewrite Hr1. cbn.
    split_and!; try done.
    rewrite length_app. by destruct (errors v1).
  - exists v, v1, r1. rewrite Hcv, Hp, Hpv. by split_and!.
Qed.

Definition duplicate_tags_plant : dict Component :=
  [ ("PT-101", instrument "PT-101" "instrument");
    ("PT-101-B",
     {| id := "PT-101-B"; tag := "PT-101"; component_type := "instrument";
        x := 0; y := 0; width := 60; height := 60; rotation := 0;
        tag_info := None |});
    ("T-100", instrument "T-100" "vessel") ].

Example validate_all_first_run :
  match PnIDValidator.__init__ duplicate_tags_plant [] with
  | Ok v =>
      match validate_all v with
      | Ok (v1, r1) =>
          deref v1 (r_errors r1) = ["Duplicate instrument tag: PT-101"] ∧
          deref v1 (r_warnings r1) =
            ["Vessel T-100 should have pressure relief protection"] ∧
          is_valid r1 = false
      | Raise _ => False
      end
  | Raise _ => False
  end.
Proof. by cbv. Qed.

Lemma validate_all_rerun_witness :
  ∃ v v1 r1 v2 r2,
    PnIDValidator.__init__ duplicate_tags_plant [] = Ok v ∧
    validate_all v = Ok (v1, r1) ∧
    validate_all v1 = Ok (v2, r2) ∧
    deref v2 (r_errors r2) = (deref v1 (r_errors r1) ++ deref v1 (r_errors r1))%list ∧
    deref v2 (r_warnings r2) =
      (deref v1 (r_warnings r1) ++ deref v1 (r_warnings r1))%list.
Proof.
  eexists _, _, _.
  edestruct (validate_all_rerun duplicate_tags_plant [] _ _ _ eq_refl eq_refl)
    as [(v2 & r2 & H1 & H2 & H3 & _) _].
  exists v2, r2. split; [reflexivity|]. split; [reflexivity|].
  split; [exact H1|]. split; [exact H2|exact H3].
Defined.

(** The second call does not return the lists of the first call: on the
    plant above the first call returns one error and one warning, the second
    two of each. *)
Lemma validate_all_twice_differs :
  ¬ (∀ components0 pipes0 v v1 r1 v2 r2,
       PnIDValidator.__init__ components0 pipes0 = Ok v →
       validate_all v = Ok (v1, r1) →
       validate_all v1 = Ok (v2, r2) →
       deref v2 (r_errors r2) = deref v1 (r_errors r1) ∧
       deref v2 (r_warnings r2) = deref v1 (r_warnings r1)).
Proof.
  intros H.
  specialize (H duplicate_tags_plant [] _ _ _ _ _ eq_refl eq_refl eq_refl).
  destruct H as [H _]. cbv in H. discriminate H.
Qed.

End ValidatorRerun.


(** ** heapq keeps the elements *)

Section HeapqFacts.
Local Open Scope list_scope.
Context {A : Type} (lt : A → A → bool).

Lemma insert_swap_hole (heap : list A) (pos other : nat) (newitem moved : A) :
  (pos < length heap)%nat → pos ≠ other → heap !! other = Some moved →
  <[other := newitem]> (<[pos := moved]> heap) ≡ₚ <[pos := newitem]> heap.
Proof.
  intros Hpos Hne Hother.
  rewrite <- (list_insert_insert_eq heap pos moved newitem).
  apply Permutation_insert_swap.
  - by apply list_lookup_insert_eq.
  - by rewrite list_lookup_insert_ne.
Qed.

Lemma _siftdown_loop_perm (fuel : nat) (heap : list A) (startpos pos : nat)
    (newitem : A) :
  (pos < length heap)%nat →
  _siftdown_loop lt fuel heap startpos pos newitem ≡ₚ <[pos := newitem]> heap.
Proof.
  revert heap pos. induction fuel as [|fuel IH]; intros heap pos Hpos; [done|].
  cbn [_siftdown_loop]. destruct (startpos <? pos)%nat eqn:Hlt; [|done].
  apply Nat.ltb_lt in Hlt.
  assert (Hpar : (Nat.shiftr (pos - 1) 1 < pos)%nat).
  { cbn. pose proof (Nat.le_div2_diag_l (pos - 1)). lia. }
  destruct (heap !! Nat.shiftr (pos - 1) 1) as [parent|] eqn:Hp; [|done].
  destruct (lt newitem parent); [|done].
  rewrite IH by (rewrite length_insert; lia).
  apply insert_swap_hole; [done|lia|done].
Qed.

Lemma _siftdown_perm (heap : list A) (startpos pos : nat) :
  _siftdown lt heap startpos pos ≡ₚ heap.
Proof.
  unfold _siftdown. destruct (heap !! pos) as [newitem|] eqn:Hp; [|done].
  rewrite _siftdown_loop_perm by (by eapply lookup_lt_Some).
  by rewrite list_insert_id.
Qed.

Lemma _siftup_loop_perm (fuel : nat) (heap : list A) (endpos pos : nat)
    (newitem : A) (heap' : list A) (pos' : nat) :
  (pos < length heap)%nat →
  _siftup_loop lt fuel heap endpos pos = (heap', pos') →
  (pos' < length heap')%nat ∧
  <[pos' := newitem]> heap' ≡ₚ <[pos := newitem]> heap.
Proof.
  revert heap pos. induction fuel as [|fuel IH]; intros heap pos Hpos Hrun.
  { by injection Hrun as <- <-. }
  cbn [_siftup_loop] in Hrun.
  destruct (2 * pos + 1 <? endpos)%nat; [|by injection Hrun as <- <-].
  set (childpos :=
         match heap !! (2 * pos + 1)%nat, heap !! (2 * pos + 1 + 1)%nat with
         | Some c, Some r =>
             if (2 * pos + 1 + 1 <? endpos)%nat && negb (lt c r)
             then (2 * pos + 1 + 1)%nat else (2 * pos + 1)%nat
         | _, _ => (2 * pos + 1)%nat
         end) in Hrun.
  assert (Hchild : (pos < childpos)%nat).
  { unfold childpos. repeat case_match; lia. }
  destruct (heap !! childpos) as [c|] eqn:Hc; [|by injection Hrun as <- <-].
  apply IH in Hrun as [Hlen Hperm];
    [|rewrite length_insert; by eapply lookup_lt_Some].
  split; [done|]. rewrite Hperm.
  apply insert_swap_hole; [done|lia|done].
Qed.

Lemma _siftup_perm (heap : list A) (pos : nat) : _siftup lt heap pos ≡ₚ heap.
Proof.
  unfold _siftup. destruct (heap !! pos) as [newitem|] eqn:Hp; [|done].
  destruct (_siftup_loop lt (length heap) heap (length heap) pos)
    as [heap' pos'] eqn:Hrun.
  apply (_siftup_loop_perm _ _ _ _ newitem) in Hrun as [Hlen Hperm];
    [|by eapply lookup_lt_Some].
  rewrite _siftdown_perm, Hperm. by rewrite list_insert_id.
Qed.

Lemma heappush_perm (heap : list A) (item : A) :
  heappush lt heap item ≡ₚ item :: heap.
Proof.
  unfold heappush. rewrite _siftdown_perm.
  by rewrite Permutation_app_comm.
Qed.

Lemma heappop_None (heap : list A) : heappop lt heap = None ↔ heap = [].
Proof.
  unfold heappop. destruct (last heap) as [lastelt|] eqn:Hl.
  - split; [|by intros ->]. by destruct (removelast heap).
  - by rewrite last_None in Hl.
Qed.

Lemma heappop_perm (heap heap' : list A) (item : A) :
  heappop lt heap = Some (item, heap') → heap ≡ₚ item :: heap'.
Proof.
  unfold heappop. destruct (last heap) as [lastelt|] eqn:Hl; [|done].
  assert (Hsplit : heap = removelast heap ++ [lastelt]).
  { destruct heap as [|a l] using rev_ind; [done|].
    rewrite last_snoc in Hl. injection Hl as ->. by rewrite removelast_last. }
  destruct (removelast heap) as [|returnitem rest] eqn:Hr.
  - intros [= <- <-]. by rewrite Hsplit.
  - intros [= <- <-]. rewrite _siftup_perm. cbn.
    rewrite Hsplit. cbn. f_equiv. by rewrite Permutation_app_comm.
Qed.

End HeapqFacts.


(** ** The A* loop *)

Section AStarFacts.
Import PipeRouter.
Local Open Scope Z_scope.
Local Open Scope list_scope.

Definition cell_of (n : GridNode.t) : cell := (GridNode.x n, GridNode.y n).

Definition in_bounds (self : PipeRouter.t) (c : cell) : Prop :=
  0 ≤ c.1 < width self / grid_size self ∧ 0 ≤ c.2 < height self / grid_size self.

(** Two cells one step apart in one of the four directions. *)
Definition adjacent (a b : cell) : Prop :=
  Z.abs (b.1 - a.1) + Z.abs (b.2 - a.2) = 1.

Lemma fold_left_snoc_bind {A B} (f : list B → A → list B) (g : A → list B)
    (l : list A) (acc : list B) :
  (∀ acc a, f acc a = acc ++ g a) → fold_left f l acc = acc ++ (l ≫= g).
Proof.
  intros Hf. revert acc. induction l as [|a l IH]; intros acc; cbn.
  - by rewrite app_nil_r.
  - by rewrite IH, Hf, <- app_assoc.
Qed.

(** What one direction adds to [neighbors]. *)
Definition neighbor_at (self : PipeRouter.t) (node : GridNode.t) (d : Z * Z)
    : list (Z * Z * Q) :=
  let new_x := GridNode.x node + d.1 in
  let new_y := GridNode.y node + d.2 in
  if (0 <=? new_x) && (new_x <? width self / grid_size self) &&
     (0 <=? new_y) && (new_y <? height self / grid_size self) then
    if negb (bool_decide ((new_x, new_y) ∈ obstacles self)) then
      [(new_x, new_y,
        if bool_decide ((new_x, new_y) ∈ pipes_grid self) then (15 # 10)%Q else 1%Q)]
    else []
  else [].

Lemma _get_neighbors_bind (self : PipeRouter.t) (node : GridNode.t) :
  _get_neighbors self node = (directions ≫= neighbor_at self node).
Proof.
  unfold _get_neighbors.
  rewrite (fold_left_snoc_bind _ (neighbor_at self node)); [done|].
  intros acc [dx dy]. unfold neighbor_at. cbn [fst snd].
  repeat case_match; by rewrite ?app_nil_r.
Qed.

Lemma _get_neighbors_spec (self : PipeRouter.t) (node : GridNode.t)
    (nb : Z * Z * Q) :
  nb ∈ _get_neighbors self node →
  in_bounds self (nb.1) ∧ ((nb.1) ∉ obstacles self) ∧ adjacent (cell_of node) (nb.1).
Proof.
  rewrite _get_neighbors_bind, list_elem_of_bind. intros (d & Hnb & Hd).
  unfold neighbor_at in Hnb.
  destruct (_ && _) eqn:Hb in Hnb; [|by apply elem_of_nil in Hnb].
  destruct (bool_decide _) eqn:Ho in Hnb; cbn in Hnb; [by apply elem_of_nil in Hnb|].
  apply list_elem_of_singleton in Hnb as ->. cbn [fst snd].
  apply bool_decide_eq_false in Ho.
  repeat (apply andb_prop in Hb as [Hb ?]).
  split_and!; [unfold in_bounds; cbn; lia | done |].
  unfold adjacent, cell_of, directions in *. cbn [fst snd].
  repeat (apply elem_of_cons in Hd as [->|Hd]; [cbn; lia|]).
  by apply elem_of_nil in Hd.
Qed.

(** The node built for a neighbour that is not in [closed_set]. *)
Definition child (end_grid : cell) (prefer_straight : bool)
    (current : GridNode.t) (nb : Z * Z * Q) : GridNode.t :=
  let '(nx, ny, cost) := nb in
  let tentative_g := (GridNode.g current + cost)%Q in
  let tentative_g :=
    match GridNode.parent current with
    | Some parent =>
        if prefer_straight then
          if negb ((GridNode.x current - GridNode.x parent =? nx - GridNode.x current) &&
                   (GridNode.y current - GridNode.y parent =? ny - GridNode.y current))
          then (tentative_g + (5 # 10))%Q else tentative_g
        else tentative_g
    | None => tentative_g
    end in
  GridNode.__init__ nx ny tentative_g (_heuristic (nx, ny) end_grid) (Some current).

Lemma neighbor_step_child (end_grid : cell) (ps : bool) (current : GridNode.t)
    (closed_set : gset cell) (open_set : list GridNode.t) (nb : Z * Z * Q) :
  neighbor_step end_grid ps current closed_set open_set nb =
  if bool_decide (nb.1 ∈ closed_set) then open_set
  else heappush GridNode.__lt__ open_set (child end_grid ps current nb).
Proof. by destruct nb as [[nx ny] cost]. Qed.

Lemma child_cell end_grid ps current nb :
  cell_of (child end_grid ps current nb) = nb.1.
Proof. by destruct nb as [[nx ny] cost]. Qed.

Lemma child_parent end_grid ps current nb :
  GridNode.parent (child end_grid ps current nb) = Some current.
Proof. by destruct nb as [[nx ny] cost]. Qed.

(** The open set after the [for] loop over the neighbours: the old one and
    one node for each neighbour outside [closed_set]. *)
Lemma expand_perm (end_grid : cell) (ps : bool) (current : GridNode.t)
    (closed_set : gset cell) (nbs : list (Z * Z * Q)) (open_set : list GridNode.t) :
  fold_left (neighbor_step end_grid ps current closed_set) nbs open_set ≡ₚ
  open_set ++ (child end_grid ps current <$> filter (λ nb, nb.1 ∉ closed_set) nbs).
Proof.
  revert open_set. induction nbs as [|nb nbs IH]; intros open_set; cbn [fold_left].
  - cbn. by rewrite app_nil_r.
  - rewrite IH, neighbor_step_child, filter_cons.
    destruct (decide (nb.1 ∉ closed_set)) as [Hn|Hn].
    + rewrite bool_decide_eq_false_2 by done.
      rewrite heappush_perm. cbn. by rewrite Permutation_middle.
    + rewrite bool_decide_eq_true_2; [done|]. by apply dec_stable.
Qed.

Lemma astar_unfold (fuel : nat) (self : PipeRouter.t) (end_grid : cell) (ps : bool)
    (open_set : list GridNode.t) (closed_set : gset cell) :
  astar (S fuel) self end_grid ps open_set closed_set =
  match heappop GridNode.__lt__ open_set with
  | None => Some Exhausted
  | Some (current, open_set) =>
      if bool_decide (cell_of current = end_grid) then Some (Reached current)
      else
        astar fuel self end_grid ps
          (fold_left (neighbor_step end_grid ps current
                        (closed_set ∪ {[cell_of current]}))
                     (_get_neighbors self current) open_set)
          (closed_set ∪ {[cell_of current]})
  end.
Proof. done. Qed.

(** A property of the nodes of the open set that survives closing more
    cells and holds for each new node also holds for the node the loop
    stops at, whose cell is the goal. *)
Lemma astar_reached_inv (P : gset cell → GridNode.t → Prop)
    (self : PipeRouter.t) (end_grid : cell) (ps : bool) :
  (∀ c c' n, c ⊆ c' → P c n → P c' n) →
  (∀ closed current nb,
     P closed current → nb ∈ _get_neighbors self current →
     nb.1 ∉ closed ∪ {[cell_of current]} →
     P (closed ∪ {[cell_of current]}) (child end_grid ps current nb)) →
  ∀ fuel open_set closed_set n,
    (∀ m, m ∈ open_set → P closed_set m) →
    astar fuel self end_grid ps open_set closed_set = Some (Reached n) →
    cell_of n = end_grid ∧ ∃ closed', P closed' n.
Proof.
  intros Hmono Hchild. induction fuel as [|fuel IH];
    intros open_set closed_set n Hopen Hrun; [done|].
  rewrite astar_unfold in Hrun.
  destruct (heappop _ open_set) as [[current rest]|] eqn:Hpop; [|done].
  apply heappop_perm in Hpop.
  assert (Hcur : P closed_set current).
  { apply Hopen. rewrite Hpop. by left. }
  case_bool_decide as Hgoal.
  { injection Hrun as <-. split; [done|]. by exists closed_set. }
  eapply IH; [|exact Hrun].
  intros m. rewrite expand_perm, elem_of_app. intros [Hm|Hm].
  - eapply Hmono; [|apply Hopen; rewrite Hpop; by right]. apply union_subseteq_l.
  - apply list_elem_of_fmap in Hm as (nb & -> & Hnb).
    apply list_elem_of_filter in Hnb as [Hnc Hnb].
    by apply Hchild.
Qed.

End AStarFacts.


(** ** The A* loop ends *)

Section AStarTermination.
Import PipeRouter.
Local Open Scope Z_scope.
Local Open Scope list_scope.

(** Every cell a neighbour can have. *)
Definition grid_cells (self : PipeRouter.t) : gset cell :=
  list_to_set
    (seqZ 0 (width self / grid_size self) ≫= λ x,
       (λ y, (x, y)) <$> seqZ 0 (height self / grid_size self)).

Lemma in_bounds_grid_cells (self : PipeRouter.t) (c : cell) :
  in_bounds self c → c ∈ grid_cells self.
Proof.
  destruct c as [x y]. intros [Hx Hy]. cbn in Hx, Hy. unfold grid_cells.
  rewrite elem_of_list_to_set, list_elem_of_bind. exists x. split.
  - apply list_elem_of_fmap. exists y. split; [done|]. apply elem_of_seqZ. lia.
  - apply elem_of_seqZ. lia.
Qed.

(** The nodes of the open set whose cell is closed already. *)
Definition stale (closed_set : gset cell) (open_set : list GridNode.t) : nat :=
  length (filter (λ n, cell_of n ∈ closed_set) open_set).

Lemma stale_perm (closed_set : gset cell) (l1 l2 : list GridNode.t) :
  l1 ≡ₚ l2 → stale closed_set l1 = stale closed_set l2.
Proof. unfold stale. by intros ->. Qed.

Lemma stale_children (end_grid : cell) (ps : bool) (current : GridNode.t)
    (closed_set : gset cell) (nbs : list (Z * Z * Q)) :
  stale closed_set
    (child end_grid ps current <$> filter (λ nb, nb.1 ∉ closed_set) nbs) = 0%nat.
Proof.
  unfold stale. induction nbs as [|nb nbs IH]; [done|].
  rewrite filter_cons. destruct (decide (nb.1 ∉ closed_set)); [|done].
  cbn [fmap list_fmap]. rewrite filter_cons_False; [done|].
  by rewrite child_cell.
Qed.

(** The loop ends for every open set whose cells lie in a finite set [U]
    that holds the cells of the grid: each turn either closes a new cell of
    [U] or removes a stale node and adds none. *)
Lemma astar_terminates (self : PipeRouter.t) (end_grid : cell) (ps : bool)
    (U : gset cell) :
  (∀ c, in_bounds self c → c ∈ U) →
  ∀ (u s : nat) (open_set : list GridNode.t) (closed_set : gset cell),
    (∀ m, m ∈ open_set → cell_of m ∈ U) →
    size (U ∖ closed_set) = u → stale closed_set open_set = s →
    ∃ N res, ∀ fuel, (N ≤ fuel)%nat →
      astar fuel self end_grid ps open_set closed_set = Some res.
Proof.
  intros HU u s. pattern u, s. apply lt_wf_double_ind. clear u s.
  intros u s IHu IHs open_set closed_set Hopen Hu Hs.
  destruct (heappop GridNode.__lt__ open_set) as [[current rest]|] eqn:Hpop.
  2: { exists 1%nat, Exhausted. intros [|fuel] Hf; [lia|].
       by rewrite astar_unfold, Hpop. }
  pose proof (heappop_perm _ _ _ _ Hpop) as Hperm.
  destruct (decide (cell_of current = end_grid)) as [Hgoal|Hgoal].
  { exists 1%nat, (Reached current). intros [|fuel] Hf; [lia|].
    by rewrite astar_unfold, Hpop, bool_decide_eq_true_2. }
  set (closed' := closed_set ∪ {[cell_of current]}).
  set (open' := fold_left (neighbor_step end_grid ps current closed')
                          (_get_neighbors self current) rest).
  assert (Hcur : cell_of current ∈ U).
  { apply Hopen. rewrite Hperm. by left. }
  assert (Hopen' : ∀ m, m ∈ open' → cell_of m ∈ U).
  { intros m. unfold open'. rewrite expand_perm, elem_of_app. intros [Hm|Hm].
    - apply Hopen. rewrite Hperm. by right.
    - apply list_elem_of_fmap in Hm as (nb & -> & Hnb).
      apply list_elem_of_filter in Hnb as [_ Hnb].
      rewrite child_cell. by apply HU, (_get_neighbors_spec self current). }
  assert (Hnext : ∃ N res, ∀ fuel, (N ≤ fuel)%nat →
            astar fuel self end_grid ps open' closed' = Some res).
  { destruct (decide (cell_of current ∈ closed_set)) as [Hin|Hnin].
    - assert (Hsame : closed' = closed_set) by (unfold closed'; set_solver).
      apply (IHs (stale closed' open')); [|done|by rewrite Hsame|done].
      rewrite <- Hs, (stale_perm _ _ _ Hperm). unfold open'.
      rewrite (stale_perm _ _ _ (expand_perm _ _ _ _ _ _)).
      unfold stale at 1. rewrite filter_app, length_app.
      fold (stale closed' rest).
      fold (stale closed'
              (child end_grid ps current <$>
               filter (λ nb, nb.1 ∉ closed') (_get_neighbors self current))).
      rewrite stale_children, Hsame. unfold stale.
      rewrite filter_cons_True by done. cbn. lia.
    - apply (IHu (size (U ∖ closed')) (stale closed' open')); [|done..].
      rewrite <- Hu. apply subset_size. unfold closed'. set_solver. }
  destruct Hnext as (N & res & HN). exists (S N), res.
  intros [|fuel] Hf; [lia|].
  rewrite astar_unfold, Hpop, bool_decide_eq_false_2 by done.
  apply HN. lia.
Qed.

End AStarTermination.


(** ** The paths A* reconstructs *)

Section ReconstructedPaths.
Import PipeRouter.
Local Open Scope Z_scope.
Local Open Scope list_scope.

(** The parent links of a node of the open set: each link is one grid step,
    each ancestor's cell is closed, and no link steps back onto the cell of
    the node two links up. *)
Inductive chain_ok (closed_set : gset cell) : GridNode.t → Prop :=
| chain_root x y g h f :
    chain_ok closed_set (GridNode.Node x y g h f None)
| chain_link x y g h f p :
    chain_ok closed_set p →
    adjacent (cell_of p) (x, y) →
    cell_of p ∈ closed_set →
    (∀ q, GridNode.parent p = Some q → cell_of q ≠ (x, y)) →
    chain_ok closed_set (GridNode.Node x y g h f (Some p)).

Lemma chain_ok_mono (c c' : gset cell) (n : GridNode.t) :
  c ⊆ c' → chain_ok c n → chain_ok c' n.
Proof.
  intros Hsub Hn. induction Hn as [|x y g h f p Hp IH Hadj Hin Hq];
    constructor; auto.
Qed.

Lemma chain_ok_parent_closed (c : gset cell) (n q : GridNode.t) :
  chain_ok c n → GridNode.parent n = Some q → cell_of q ∈ c.
Proof. intros Hn. destruct Hn; cbn; [done|]. by intros [= <-]. Qed.

Lemma chain_ok_child (self : PipeRouter.t) (end_grid : cell) (ps : bool)
    (closed_set : gset cell) (current : GridNode.t) (nb : Z * Z * Q) :
  chain_ok closed_set current →
  nb ∈ _get_neighbors self current →
  nb.1 ∉ closed_set ∪ {[cell_of current]} →
  chain_ok (closed_set ∪ {[cell_of current]}) (child end_grid ps current nb).
Proof.
  intros Hcur Hnb Hfresh.
  apply _get_neighbors_spec in Hnb as (_ & _ & Hadj).
  destruct nb as [[nx ny] cost]. cbn [fst] in *.
  unfold child, GridNode.__init__. constructor.
  - eapply chain_ok_mono; [|done]. apply union_subseteq_l.
  - done.
  - set_solver.
  - intros q Hq Heq. apply Hfresh. rewrite <- Heq.
    apply elem_of_union_l. by eapply chain_ok_parent_closed.
Qed.

(** The start node alone in the open set, then any number of turns: the
    node the loop stops at is at the goal and has good parent links. *)
Lemma astar_reached_chain (self : PipeRouter.t) (end_grid : cell) (ps : bool)
    (fuel : nat) (start_node n : GridNode.t) :
  GridNode.parent start_node = None →
  astar fuel self end_grid ps (heappush GridNode.__lt__ [] start_node) ∅
    = Some (Reached n) →
  cell_of n = end_grid ∧ ∃ closed_set, chain_ok closed_set n.
Proof.
  intros Hroot Hrun.
  eapply (astar_reached_inv chain_ok); [| |  |exact Hrun].
  - intros c c' m. apply chain_ok_mono.
  - intros closed current nb. apply chain_ok_child.
  - intros m. rewrite heappush_perm, list_elem_of_singleton. intros ->.
    destruct start_node; cbn in Hroot; subst. constructor.
Qed.

(** *** Grid paths *)

(** One grid step of size [gs] along one axis. *)
Definition grid_step (gs : Z) (a b : cell) : Prop :=
  (a.1 = b.1 ∧ Z.abs (b.2 - a.2) = Z.abs gs) ∨
  (a.2 = b.2 ∧ Z.abs (b.1 - a.1) = Z.abs gs).

(** A list of points in which neighbours are one grid step apart and no
    point is the point two places before it. *)
Definition grid_path (gs : Z) (path : list cell) : Prop :=
  (∀ i a b, path !! i = Some a → path !! S i = Some b → grid_step gs a b) ∧
  (∀ i a c, path !! i = Some a → path !! S (S i) = Some c → a ≠ c).

Lemma grid_step_sym gs a b : grid_step gs a b → grid_step gs b a.
Proof. unfold grid_step. lia. Qed.

Lemma grid_path_reverse (gs : Z) (path : list cell) :
  grid_path gs path → grid_path gs (reverse path).
Proof.
  intros [H1 H2]. split.
  - intros i a b Ha Hb.
    apply reverse_lookup_Some in Ha as [Ha Hi], Hb as [Hb Hi'].
    apply grid_step_sym. apply (H1 (length path - S (S i))%nat); [done|].
    by replace (S (length path - S (S i))) with (length path - S i)%nat by lia.
  - intros i a c Ha Hc.
    apply reverse_lookup_Some in Ha as [Ha Hi], Hc as [Hc Hi'].
    intros ->. apply (H2 (length path - S (S (S i)))%nat c c); [done| |done].
    by replace (S (S (length path - S (S (S i))))) with (length path - S i)%nat by lia.
Qed.

Lemma walk_parents_head (self : PipeRouter.t) (n : GridNode.t) :
  walk_parents self n !! 0%nat =
  Some (GridNode.x n * grid_size self, GridNode.y n * grid_size self).
Proof. by destruct n. Qed.

Lemma walk_parents_grid_path (self : PipeRouter.t) (closed_set : gset cell)
    (n : GridNode.t) :
  grid_size self ≠ 0 → chain_ok closed_set n →
  grid_path (grid_size self) (walk_parents self n).
Proof.
  intros Hgs Hn. induction Hn as [|x y g h f p Hp [IH1 IH2] Hadj Hin Hq].
  { split; intros [|i] ???; done. }
  cbn [walk_parents GridNode.parent GridNode.x GridNode.y]. split.
  - intros [|i] a b Ha Hb; [|by apply (IH1 i)].
    cbn in Ha. injection Ha as <-. cbn in Hb. rewrite walk_parents_head in Hb.
    injection Hb as <-. unfold adjacent, cell_of, grid_step in *. cbn in *.
    assert (Hcases : x = GridNode.x p ∧ (y = GridNode.y p + 1 ∨ y = GridNode.y p - 1) ∨
                     y = GridNode.y p ∧ (x = GridNode.x p + 1 ∨ x = GridNode.x p - 1))
      by lia.
    destruct Hcases as [[-> [-> | ->]] | [-> [-> | ->]]]; lia.
  - intros [|i] a c Ha Hc; [|by apply (IH2 i)].
    cbn in Ha. injection Ha as <-. cbn in Hc.
    destruct p as [px py pg ph pf [q|]]; cbn in Hc; [|done].
    rewrite walk_parents_head in Hc. injection Hc as <-.
    specialize (Hq q eq_refl). unfold cell_of in Hq. intros [= Ex Ey].
    apply Hq. f_equal; nia.
Qed.

Lemma reconstruct_grid_path (self : PipeRouter.t) (closed_set : gset cell)
    (n : GridNode.t) :
  grid_size self ≠ 0 → chain_ok closed_set n →
  grid_path (grid_size self) (reconstruct self n).
Proof.
  intros Hgs Hn. unfold reconstruct.
  rewrite rev_alt. change (rev_append ?l []) with (reverse l).
  by eapply grid_path_reverse, walk_parents_grid_path.
Qed.

End ReconstructedPaths.


(** ** Smoothing *)

Section Smoothing.
Import PipeRouter.
Local Open Scope Z_scope.
Local Open Scope list_scope.

(** The direction of the move from [a] to [b]. *)
Definition direction (a b : cell) : Z * Z := (b.1 - a.1, b.2 - a.2).

(** No two neighbours of the list differ in both coordinates. *)
Definition orthogonal (path : list cell) : Prop :=
  ∀ k a b, path !! k = Some a → path !! S k = Some b → a.1 = b.1 ∨ a.2 = b.2.

(** Every point of [path] after position [i] at which the direction changes
    is in [out]. *)
Definition turns_kept (path : list cell) (i : nat) (out : list cell) : Prop :=
  ∀ m a b c,
    (i ≤ m)%nat →
    path !! m = Some a → path !! S m = Some b → path !! S (S m) = Some c →
    direction a b ≠ direction b c → b ∈ out.

Lemma _are_collinear_true (p q : cell) :
  _are_collinear p q = true ↔ p.1 = q.1 ∨ p.2 = q.2.
Proof. unfold _are_collinear. rewrite orb_true_iff, !Z.eqb_eq. done. Qed.

Lemma _are_collinear_false (p q : cell) :
  _are_collinear p q = false ↔ p.1 ≠ q.1 ∧ p.2 ≠ q.2.
Proof. unfold _are_collinear. rewrite orb_false_iff, !Z.eqb_neq. done. Qed.

Lemma look_ahead_spec (pi : cell) (rest : list cell) (j0 : nat) :
  (j0 ≤ look_ahead pi rest j0 ≤ j0 + length rest)%nat ∧
  (∀ t q, (j0 + t < look_ahead pi rest j0)%nat → rest !! t = Some q →
          _are_collinear pi q = true) ∧
  (∀ q, rest !! (look_ahead pi rest j0 - j0)%nat = Some q →
        _are_collinear pi q = false).
Proof.
  revert j0. induction rest as [|pj rest IH]; intros j0; cbn [look_ahead length].
  { split_and!; [lia|lia|intros; lia|]. intros q. by rewrite lookup_nil. }
  destruct (_are_collinear pi pj) eqn:Hc.
  - destruct (IH (S j0)) as (Hle & Hrun & Hstop). split_and!; [lia|lia| |].
    + intros [|t] q Ht Hq; cbn in Hq; [by injection Hq as <-|].
      apply (Hrun t); [lia|done].
    + intros q Hq.
      replace (look_ahead pi rest (S j0) - j0)%nat
        with (S (look_ahead pi rest (S j0) - S j0)) in Hq by lia.
      by apply Hstop.
  - split_and!; [lia|lia|intros; lia|]. rewrite Nat.sub_diag. cbn.
    by intros q [= <-].
Qed.

(** The inner loop from position [i] of [path]. *)
Lemma look_ahead_path (path : list cell) (i : nat) (pi : cell) :
  let j := look_ahead pi (drop (i + 1) path) (i + 1) in
  (i + 1 ≤ j)%nat ∧
  ((i + 1 ≤ length path)%nat → (j ≤ length path)%nat) ∧
  (∀ m q, (i + 1 ≤ m < j)%nat → path !! m = Some q → _are_collinear pi q = true) ∧
  (∀ q, path !! j = Some q → _are_collinear pi q = false).
Proof.
  intros j.
  destruct (look_ahead_spec pi (drop (i + 1) path) (i + 1)) as (Hle & Hrun & Hstop).
  fold j in Hle, Hrun, Hstop. rewrite length_drop in Hle.
  split_and!; [lia|lia| |].
  - intros m q Hm Hq. apply (Hrun (m - (i + 1))%nat); [lia|].
    rewrite lookup_drop. by replace (i + 1 + (m - (i + 1)))%nat with m by lia.
  - intros q Hq. apply Hstop. rewrite lookup_drop.
    by replace (i + 1 + (j - (i + 1)))%nat with j by lia.
Qed.

(** On a grid path the points the inner loop runs over lie on one straight
    line and follow one another in one direction. *)
Lemma run_direction (gs : Z) (path : list cell) (i j : nat) (p b : cell) :
  gs ≠ 0 → grid_path gs path →
  path !! i = Some p → path !! S i = Some b →
  (∀ m q, (i + 1 ≤ m < j)%nat → path !! m = Some q → _are_collinear p q = true) →
  ∀ k a c,
    (S (i + k) < j)%nat → path !! (i + k)%nat = Some a → path !! S (i + k) = Some c →
    direction a c = direction p b ∧
    ((direction p b).1 = 0 → c.1 = p.1) ∧ ((direction p b).2 = 0 → c.2 = p.2) ∧
    (0 < (direction p b).1 → p.1 < c.1) ∧ ((direction p b).1 < 0 → c.1 < p.1) ∧
    (0 < (direction p b).2 → p.2 < c.2) ∧ ((direction p b).2 < 0 → c.2 < p.2).
Proof.
  intros Hgs [Hstep Hback] Hp Hb Hrun.
  pose proof (Hstep _ _ _ Hp Hb) as Hpb.
  induction k as [|k IH]; intros a c Hk Ha Hc.
  - rewrite Nat.add_0_r in Ha, Hc. simplify_eq.
    unfold direction, grid_step in *. cbn. split; [done|lia].
  - replace (i + S k)%nat with (S (i + k)) in Ha, Hc by lia.
    destruct (lookup_lt_is_Some_2 path (i + k)%nat) as [a0 Ha0].
    { apply lookup_lt_Some in Ha. lia. }
    destruct (IH a0 a) as (Hdir & Hline); [lia|done|done|].
    pose proof (Hstep _ _ _ Ha Hc) as Hac.
    pose proof (Hback _ _ _ Ha0 Hc) as Hne.
    assert (Hcol : _are_collinear p c = true).
    { apply (Hrun (S (S (i + k)))); [lia|done]. }
    apply _are_collinear_true in Hcol.
    assert (Hne' : a0.1 ≠ c.1 ∨ a0.2 ≠ c.2).
    { destruct a0 as [x0 y0], c as [x1 y1]. cbn.
      destruct (decide (x0 = x1)); [|by left].
      destruct (decide (y0 = y1)); [|by right]. congruence. }
    unfold direction, grid_step in *. cbn in *.
    injection Hdir as Hd1 Hd2. split; [f_equal; lia|lia].
Qed.

Lemma grid_step_collinear (gs : Z) (a b : cell) :
  grid_step gs a b → _are_collinear a b = true.
Proof. rewrite _are_collinear_true. unfold grid_step. lia. Qed.

(** The outer loop on a grid path, from position [i] with [path[i]] the
    last point appended: it ends, and what it appends is orthogonal and
    keeps every turn. *)
Lemma smooth_loop_grid (gs : Z) (path : list cell) :
  gs ≠ 0 → grid_path gs path →
  ∀ (n i : nat) (smoothed : list cell) (p : cell) (fuel : nat),
    (length path - i ≤ n)%nat → (n ≤ fuel)%nat → path !! i = Some p →
    ∃ out,
      smooth_loop fuel path i smoothed = Some (smoothed ++ out) ∧
      orthogonal (p :: out) ∧ turns_kept path i out.
Proof.
  intros Hgs Hpath. induction n as [|n IH]; intros i smoothed p fuel Hn Hfuel Hp.
  { apply lookup_lt_Some in Hp. lia. }
  destruct fuel as [|fuel]; [lia|]. cbn [smooth_loop].
  destruct (i + 1 <? length path)%nat eqn:Hlast.
  2: { apply Nat.ltb_ge in Hlast. exists []. rewrite app_nil_r. split_and!; [done| |].
       - intros [|k] a b Ha Hb; done.
       - intros m a b c Hm _ Hb. apply lookup_lt_Some in Hb. lia. }
  apply Nat.ltb_lt in Hlast. rewrite Hp.
  destruct (look_ahead_path path i p) as (Hle & Hlen & Hrun & Hstop).
  set (j := look_ahead p (drop (i + 1) path) (i + 1)) in *.
  specialize (Hlen ltac:(lia)).
  destruct (lookup_lt_is_Some_2 path (S i)) as [b Hb]; [lia|].
  assert (Hj : (i + 2 ≤ j)%nat).
  { destruct (decide (j = i + 1)%nat) as [Heq|]; [|lia].
    rewrite Heq, Nat.add_1_r in Hstop. specialize (Hstop b Hb).
    rewrite (grid_step_collinear gs) in Hstop; [done|].
    by apply (proj1 Hpath i). }
  destruct (lookup_lt_is_Some_2 path (j - 1)%nat) as [q Hq]; [lia|].
  rewrite Hq.
  destruct (IH (j - 1)%nat (smoothed ++ [q]) q fuel) as (out & Hout & Horth & Hturns);
    [lia|lia|done|].
  exists (q :: out). split_and!.
  - rewrite Hout, <- app_assoc. done.
  - intros [|k] a c Ha Hc.
    + cbn in Ha, Hc. simplify_eq. apply _are_collinear_true.
      apply (Hrun (j - 1)%nat); [lia|done].
    + by apply (Horth k).
  - intros m a b' c Hm Ha Hb' Hc Hturn.
    destruct (decide (S (S m) < j)%nat) as [Hin|Hout'].
    + exfalso. apply Hturn.
      destruct (run_direction gs path i j p b Hgs Hpath Hp Hb Hrun (m - i)%nat a b')
        as [H1 _]; [lia|by replace (i + (m - i))%nat with m by lia
                    |by replace (i + (m - i))%nat with m by lia|].
      destruct (run_direction gs path i j p b Hgs Hpath Hp Hb Hrun (S m - i)%nat b' c)
        as [H2 _]; [lia|by replace (i + (S m - i))%nat with (S m) by lia
                    |by replace (i + (S m - i))%nat with (S m) by lia|].
      congruence.
    + destruct (decide (S m = j - 1)%nat) as [Heq|Hne].
      * rewrite Heq in Hb'. simplify_eq. by left.
      * right. apply (Hturns m a b' c); [lia|done..].
Qed.

(** [_smooth_path] on a grid path: it ends, its result is orthogonal and
    holds every turn of the path, and it is not empty when the path is not. *)
Lemma _smooth_path_grid (gs : Z) (path : list cell) :
  gs ≠ 0 → grid_path gs path →
  ∃ out, _smooth_path path = Some out ∧ orthogonal out ∧ turns_kept path 0 out ∧
         (path ≠ [] → out ≠ []).
Proof.
  intros Hgs Hpath. unfold _smooth_path.
  destruct (length path <=? 2)%nat eqn:Hlen.
  { exists path. split_and!; [done| | |done].
    - intros k a b Ha Hb. apply _are_collinear_true, (grid_step_collinear gs).
      by apply (proj1 Hpath k).
    - intros m a b c _ _ Hb _ _. by eapply list_elem_of_lookup_2. }
  apply Nat.leb_gt in Hlen. destruct path as [|p0 path']; [cbn in Hlen; lia|].
  destruct (smooth_loop_grid gs (p0 :: path') Hgs Hpath
              (length (p0 :: path')) 0%nat [p0] p0 (length (p0 :: path')))
    as (out & Hout & Horth & Hturns); [lia|lia|done|].
  exists ([p0] ++ out). split_and!; [done|done| |done].
  intros m a b c Hm Ha Hb Hc Hturn. right. by apply (Hturns m a b c).
Qed.

End Smoothing.


(** ** find_path *)

Section FindPath.
Import PipeRouter.
Local Open Scope Z_scope.
Local Open Scope list_scope.

Definition start_node (self : PipeRouter.t) (start end_ : point) : GridNode.t :=
  GridNode.__init__ (to_grid self start).1 (to_grid self start).2 0
    (_heuristic (to_grid self start) (to_grid self end_)) None.

(** The [while open_set] loop as [find_path] starts it. *)
Definition search_from (fuel : nat) (self : PipeRouter.t) (start end_ : point)
    (prefer_straight : bool) : option search :=
  astar fuel self (to_grid self end_) prefer_straight
    (heappush GridNode.__lt__ [] (start_node self start end_)) ∅.

Lemma start_node_cell (self : PipeRouter.t) (start end_ : point) :
  cell_of (start_node self start end_) = to_grid self start.
Proof.
  unfold cell_of, start_node, GridNode.__init__. cbn [GridNode.x GridNode.y].
  by destruct (to_grid self start).
Qed.

Lemma find_path_unfold (fuel : nat) (self : PipeRouter.t) (start end_ : point)
    (ps : bool) :
  grid_size self ≠ 0 →
  find_path fuel self start end_ ps =
  match search_from fuel self start end_ ps with
  | None => None
  | Some (Reached current) =>
      match (if ps then _smooth_path (reconstruct self current)
             else Some (reconstruct self current)) with
      | None => None
      | Some path =>
          Some (path ← setitem_first (map to_point path) start;
                setitem_last path end_)
      end
  | Some Exhausted => Some (Ok (_fallback_path start end_))
  end.
Proof.
  intros Hgs. unfold find_path. by rewrite (proj2 (Z.eqb_neq _ _) Hgs).
Qed.

Lemma search_from_terminates (self : PipeRouter.t) (start end_ : point) (ps : bool) :
  ∃ N res, ∀ fuel, (N ≤ fuel)%nat → search_from fuel self start end_ ps = Some res.
Proof.
  unfold search_from.
  eapply (astar_terminates self (to_grid self end_) ps
            (grid_cells self ∪ {[to_grid self start]})
            (λ c Hc, elem_of_union_l _ _ _ (in_bounds_grid_cells self c Hc)));
    [|reflexivity..].
  intros m. rewrite heappush_perm, list_elem_of_singleton. intros ->.
  apply elem_of_union_r, elem_of_singleton, start_node_cell.
Qed.

Lemma search_from_reached (self : PipeRouter.t) (start end_ : point) (ps : bool)
    (fuel : nat) (n : GridNode.t) :
  grid_size self ≠ 0 →
  search_from fuel self start end_ ps = Some (Reached n) →
  cell_of n = to_grid self end_ ∧
  grid_path (grid_size self) (reconstruct self n) ∧
  reconstruct self n ≠ [].
Proof.
  intros Hgs Hrun.
  apply astar_reached_chain in Hrun as [Hgoal [closed_set Hchain]]; [|done].
  split_and!; [done|by eapply reconstruct_grid_path|].
  unfold reconstruct. destruct n. cbn. by destruct (rev _).
Qed.

(** C9. For every router with a non-zero grid size (any obstacle set, any
    pipe-occupancy set), every start and end and both values of
    [prefer_straight], [find_path] ends: with enough turns of the A* loop
    it returns a path, and the path is not empty. *)
Theorem find_path_terminates (self : PipeRouter.t) (start end_ : point) (ps : bool) :
  grid_size self ≠ 0 →
  ∃ N path, path ≠ [] ∧
    ∀ fuel, (N ≤ fuel)%nat → find_path fuel self start end_ ps = Some (Ok path).
Proof.
  intros Hgs.
  destruct (search_from_terminates self start end_ ps) as (N & res & HN).
  destruct res as [n|].
  - destruct (search_from_reached self start end_ ps N n Hgs (HN N (le_n N)))
      as (_ & Hpath & Hne).
    assert (Hsmooth : ∃ out,
      (if ps then _smooth_path (reconstruct self n)
       else Some (reconstruct self n)) = Some out ∧ out ≠ []).
    { destruct ps; [|by eexists].
      destruct (_smooth_path_grid _ _ Hgs Hpath) as (out & Hout & _ & _ & Hne').
      exists out. split; [done|by apply Hne']. }
    destruct Hsmooth as (out & Hout & Hne').
    destruct out as [|p0 out]; [done|].
    eexists N, _. split; [|intros fuel Hf].
    2: { rewrite find_path_unfold, (HN fuel Hf), Hout by done. cbn. reflexivity. }
    intros Hnil. apply (f_equal length) in Hnil.
    by rewrite length_insert in Hnil.
  - exists N, (_fallback_path start end_). split; [done|]. intros fuel Hf.
    by rewrite find_path_unfold, (HN fuel Hf).
Qed.

(** The end cell has no neighbour a path could come from: each of its four
    neighbours is outside the grid or an obstacle, and none is the start
    cell, which is not the end cell either. *)
Definition enclosed (self : PipeRouter.t) (start_grid end_grid : cell) : Prop :=
  start_grid ≠ end_grid ∧
  ∀ c, adjacent c end_grid →
       c ≠ start_grid ∧ (in_bounds self c → c ∈ obstacles self).

Lemma search_from_enclosed (self : PipeRouter.t) (start end_ : point) (ps : bool)
    (fuel : nat) (n : GridNode.t) :
  enclosed self (to_grid self start) (to_grid self end_) →
  search_from fuel self start end_ ps ≠ Some (Reached n).
Proof.
  intros [Hne Hwall] Hrun.
  pose (P := λ (_ : gset cell) (m : GridNode.t),
          cell_of m ≠ to_grid self end_ ∧
          (cell_of m = to_grid self start ∨
           (in_bounds self (cell_of m) ∧ cell_of m ∉ obstacles self))).
  enough (Hx : cell_of n = to_grid self end_ ∧ ∃ closed', P closed' n)
    by (by destruct Hx as [Hgoal [? [Hcontra _]]]).
  eapply (astar_reached_inv P); [done| | |exact Hrun].
  - intros closed current nb [_ Hcur] Hnb _.
    apply _get_neighbors_spec in Hnb as (Hin & Hfree & Hadj).
    unfold P. rewrite child_cell. split; [|by right].
    intros Heq. rewrite Heq in Hadj.
    destruct (Hwall _ Hadj) as [Hns Hobs].
    destruct Hcur as [Hs|[Hb Hf]]; [done|]. by apply Hf, Hobs.
  - intros m. rewrite heappush_perm, list_elem_of_singleton. intros ->.
    unfold P. rewrite start_node_cell. split; [done|by left].
Qed.

(** C4. Whenever the open set runs empty before the goal cell is popped,
    [find_path] returns the four points [start], [(mid_x, start_y)],
    [(mid_x, end_y)], [end] with [mid_x = (start_x + end_x) / 2]; and this is
    what happens, after finitely many turns, when the end cell is enclosed. *)
Theorem find_path_fallback (self : PipeRouter.t) (start end_ : point) (ps : bool) :
  grid_size self ≠ 0 →
  (∀ fuel,
     search_from fuel self start end_ ps = Some Exhausted →
     find_path fuel self start end_ ps =
     Some (Ok [start; (((start.1 + end_.1) / 2)%Q, start.2);
               (((start.1 + end_.1) / 2)%Q, end_.2); end_])) ∧
  (enclosed self (to_grid self start) (to_grid self end_) →
   ∃ N, ∀ fuel, (N ≤ fuel)%nat →
     search_from fuel self start end_ ps = Some Exhausted ∧
     find_path fuel self start end_ ps =
     Some (Ok [start; (((start.1 + end_.1) / 2)%Q, start.2);
               (((start.1 + end_.1) / 2)%Q, end_.2); end_])).
Proof.
  intros Hgs. split.
  - intros fuel Hrun. by rewrite find_path_unfold, Hrun.
  - intros Hwall.
    destruct (search_from_terminates self start end_ ps) as (N & res & HN).
    exists N. intros fuel Hf. specialize (HN fuel Hf).
    destruct res as [n|]; [by apply search_from_enclosed in HN|].
    split; [done|]. by rewrite find_path_unfold, HN.
Qed.

(** C6. For the cell path that A* reconstructs (any router with a non-zero
    grid size, any start and end): the smoothing loop ends, every point of
    the path at which the direction of travel changes is in its result, and
    no two neighbours of its result differ in both x and y. *)
Theorem smoothing_keeps_turns (self : PipeRouter.t) (start end_ : point) (ps : bool)
    (fuel : nat) (n : GridNode.t) :
  grid_size self ≠ 0 →
  search_from fuel self start end_ ps = Some (Reached n) →
  ∃ out,
    _smooth_path (reconstruct self n) = Some out ∧
    (∀ m a b c,
       reconstruct self n !! m = Some a →
       reconstruct self n !! S m = Some b →
       reconstruct self n !! S (S m) = Some c →
       direction a b ≠ direction b c → b ∈ out) ∧
    (∀ k a b, out !! k = Some a → out !! S k = Some b → a.1 = b.1 ∨ a.2 = b.2).
Proof.
  intros Hgs Hrun.
  destruct (search_from_reached self start end_ ps fuel n Hgs Hrun) as (_ & Hpath & _).
  destruct (_smooth_path_grid _ _ Hgs Hpath) as (out & Hout & Horth & Hturns & _).
  exists out. split_and!; [done| |done].
  intros m a b c. apply Hturns. lia.
Qed.

End FindPath.


(** ** Worked routing requests *)

Section RoutingExamples.
Import PipeRouter.
Local Open Scope Z_scope.
Local Open Scope list_scope.

(** [PipeRouter(grid_size=10)] with no obstacle and no routed pipe. *)
Definition empty_router : PipeRouter.t := PipeRouter.__init__ 10 2000 1500.

(** The same grid with the four neighbours of cell (5, 5) blocked. *)
Definition walled_router : PipeRouter.t :=
  {| grid_size := 10; width := 2000; height := 1500;
     obstacles := {[ (4, 5); (6, 5); (5, 4); (5, 6) ]};
     pipes_grid := ∅ |}.

Lemma find_path_terminates_witness :
  ∃ N path, path ≠ [] ∧
    ∀ fuel, (N ≤ fuel)%nat →
      find_path fuel walled_router (0, 0)%Q (100, 50)%Q true = Some (Ok path).
Proof. apply find_path_terminates. discriminate. Defined.

Lemma find_path_fallback_witness :
  ∃ N, ∀ fuel, (N ≤ fuel)%nat →
    search_from fuel walled_router (0, 0)%Q (55, 55)%Q true = Some Exhausted ∧
    find_path fuel walled_router (0, 0)%Q (55, 55)%Q true =
    Some (Ok [(0, 0)%Q; (((0 + 55) / 2)%Q, 0%Q); (((0 + 55) / 2)%Q, 55%Q);
              (55, 55)%Q]).
Proof.
  apply (proj2 (find_path_fallback walled_router (0, 0)%Q (55, 55)%Q true
                  ltac:(discriminate))).
  split; [discriminate|].
  intros [cx cy] Hadj. unfold adjacent in Hadj.
  change (to_grid walled_router (55, 55)%Q) with (5, 5) in Hadj. cbn in Hadj.
  split.
  - change (to_grid walled_router (0, 0)%Q) with (0, 0). intros [= -> ->]. lia.
  - intros _.
    assert (Hc : (cx, cy) = (4, 5) ∨ (cx, cy) = (6, 5) ∨
                 (cx, cy) = (5, 4) ∨ (cx, cy) = (5, 6)).
    { assert (cx = 4 ∧ cy = 5 ∨ cx = 6 ∧ cy = 5 ∨ cx = 5 ∧ cy = 4 ∨ cx = 5 ∧ cy = 6)
        as [[-> ->] | [[-> ->] | [[-> ->] | [-> ->]]]] by lia; auto. }
    unfold walled_router. cbn [obstacles]. clear Hadj.
    rewrite !elem_of_union, !elem_of_singleton. tauto.
Defined.

Lemma smoothing_keeps_turns_witness :
  ∃ n out,
    search_from 200 empty_router (0, 0)%Q (100, 50)%Q true = Some (Reached n) ∧
    _smooth_path (reconstruct empty_router n) = Some out ∧
    (∀ k a b, out !! k = Some a → out !! S k = Some b → a.1 = b.1 ∨ a.2 = b.2).
Proof.
  assert (E : ∃ n, search_from 200 empty_router (0, 0)%Q (100, 50)%Q true
                   = Some (Reached n)).
  { vm_compute. eexists. reflexivity. }
  destruct E as [n E].
  pose proof (smoothing_keeps_turns empty_router (0, 0)%Q (100, 50)%Q true 200 n
                ltac:(discriminate) E) as H.
  destruct H as (out & Hout & _ & Horth).
  exists n, out. split; [exact E|]. split; [exact Hout|exact Horth].
Defined.

(** Start and end in one grid cell: the reconstructed path has one point,
    [path[0] = start] and [path[-1] = end] write to the same place, and the
    path that comes back is [[end]]. *)
Lemma find_path_same_cell (self : PipeRouter.t) (start end_ : point) (ps : bool)
    (fuel : nat) :
  grid_size self ≠ 0 → to_grid self start = to_grid self end_ →
  find_path (S fuel) self start end_ ps = Some (Ok [end_]).
Proof.
  intros Hgs Hcell. rewrite find_path_unfold by done. unfold search_from.
  change (heappush GridNode.__lt__ [] (start_node self start end_))
    with [start_node self start end_].
  rewrite astar_unfold.
  change (heappop GridNode.__lt__ [start_node self start end_])
    with (Some (start_node self start end_, @nil GridNode.t)).
  cbv beta iota.
  rewrite bool_decide_eq_true_2 by (by rewrite start_node_cell).
  by destruct ps.
Qed.

(** C3. [find_path((1, 1), (2, 2))] on the default grid returns [[(2, 2)]]:
    the first point of the returned path is the end, not the start. *)
Theorem find_path_same_cell_loses_start :
  find_path 1 empty_router (1, 1)%Q (2, 2)%Q true = Some (Ok [(2, 2)%Q]) ∧
  (∀ fuel, find_path (S fuel) empty_router (1, 1)%Q (2, 2)%Q true
           = Some (Ok [(2, 2)%Q])) ∧
  head [(2, 2)%Q] ≠ Some (1, 1)%Q.
Proof.
  split_and!.
  - vm_compute. reflexivity.
  - intros fuel. by apply find_path_same_cell.
  - discriminate.
Qed.

End RoutingExamples.
